(** * httptrack: carrying tracking values from an inbound HTTP request to
      the outbound requests made on its behalf

    A shallow embedding of [httptrack.go] (package [httptrack]) and of the
    parts of [net/http], [net/url] and [context] that it calls, followed by
    the properties of the bind pass ([Handler]) and of the replay
    ([AddContextData], [NewRequestWithContext]). *)

From Stdlib Require Import ZArith NArith Ascii.
From stdpp Require Import base decidable option list strings pretty sorting gmap.

(** ** Errors

    A Go [error] made by [errors.New] is a pointer: two such values are equal
    only when they are the same variable.  [ErrMissingContext] is the
    package-level variable of [httptrack.go]; every other error is an
    [errorString] with its message. *)

Inductive error : Type :=
  | ErrMissingContext
  | errorString (msg : string).

#[global] Instance error_eq_dec : EqDecision error.
Proof. solve_decision. Defined.

(** [errors.Is err target] on errors that wrap nothing. *)
Definition errors_Is (err target : error) : bool := bool_decide (err = target).

(** ** The carrier: [ctxValue] and [ctxData] *)

Definition LocationHeader : Z := 1%Z.
Definition LocationCookie : Z := 2%Z.
Definition LocationQueryParam : Z := 3%Z.

Record ctxValue : Type := mkCtxValue {
  location : Z;
  name : string;
  value : string
}.

Record ctxData : Type := mkCtxData {
  values : list ctxValue
}.

#[global] Instance ctxValue_eq_dec : EqDecision ctxValue.
Proof. solve_decision. Defined.

#[global] Instance ctxData_eq_dec : EqDecision ctxData.
Proof. solve_decision. Defined.

(** ** [context]: a chain of key/value pairs

    A key is compared with its dynamic type: [ctxDataName] is the private key
    type of the package, [foreignKey] stands for the keys of everybody else.
    A stored value is an [interface{}]; [AnyCtxData] is the one dynamic type
    the type assertion of [AddContextData] accepts. *)

Inductive ctxKey : Type :=
  | ctxDataName (s : string)
  | foreignKey (s : string).

Inductive ctxAny : Type :=
  | AnyCtxData (d : ctxData)
  | AnyForeign (s : string).

Inductive context_Context : Type :=
  | context_Background
  | context_WithValue (parent : context_Context) (key : ctxKey) (val : ctxAny).

#[global] Instance ctxKey_eq_dec : EqDecision ctxKey.
Proof. solve_decision. Defined.

(** [ctx.Value(key)]: the innermost binding of [key], if any. *)
Fixpoint context_Value (c : context_Context) (key : ctxKey) : option ctxAny :=
  match c with
  | context_Background => None
  | context_WithValue parent k v =>
      if decide (k = key) then Some v else context_Value parent key
  end.

(** ** [net/url] and [net/http]: the request

    [Header] is the allocated map every request built by [net/http] holds
    (canonical key to the list of its values, one per header line); a request
    literal whose [Header] is the nil map, on which any write panics, is
    outside the model.  Cookies live in the [Cookie] lines of the header;
    the query lives in [RawQuery]; [URL] may be nil. *)

Record url_URL : Type := mkURL {
  Scheme : string;
  Host : string;
  Path : string;
  RawQuery : string
}.

Record Request : Type := mkRequest {
  Method : string;
  URL : option url_URL;
  Header : gmap string (list string);
  Body : string;
  ctx : option context_Context
}.

(** [req.Context()]: the background context when none was set. *)
Definition Request_Context (r : Request) : context_Context :=
  default context_Background (ctx r).

(** [req.WithContext(c)]: a shallow copy with the context replaced. *)
Definition Request_WithContext (r : Request) (c : context_Context) : Request :=
  {| Method := Method r; URL := URL r; Header := Header r; Body := Body r;
     ctx := Some c |}.

(** The string-level functions of the standard library that the package
    relies on.  The development is parametric in them: nothing below depends
    on how a header key is canonicalised, how a cookie line is parsed or
    written, how a query string is parsed or encoded, or how the request
    constructor validates its arguments. *)
Class NetHTTP : Type := mkNetHTTP {
  (** [textproto.CanonicalMIMEHeaderKey] *)
  CanonicalMIMEHeaderKey : string → string;
  (** [Request.Cookie]: the value of the first cookie of that name in the
      [Cookie] lines, [None] for [ErrNoCookie] *)
  readCookie : list string → string → option string;
  (** the pair [AddCookie] writes:
      [sanitizeCookieName(n) + "=" + sanitizeCookieValue(v)] *)
  cookiePair : string → string → string;
  (** [url.ParseQuery], its error dropped as [URL.Query] does *)
  ParseQuery : string → gmap string (list string);
  (** [url.Values.Encode] *)
  Encode : gmap string (list string) → string;
  (** [http.NewRequestWithContext ctx method url body] *)
  http_NewRequestWithContext :
    option context_Context → string → string → string → Request + error
}.

(** The values under a key; a missing key reads as the nil slice. *)
Definition slice_of (m : gmap string (list string)) (k : string) : list string :=
  default [] (m !! k).

Definition first_or_empty (vs : list string) : string :=
  match vs with
  | v :: _ => v
  | [] => ""
  end.

(** [url.Values.Get] and [url.Values.Add]: keys are used as they are. *)
Definition Values_Get (q : gmap string (list string)) (key : string) : string :=
  first_or_empty (slice_of q key).

Definition Values_Add (q : gmap string (list string)) (key val : string)
  : gmap string (list string) :=
  <[key := slice_of q key ++ [val]]> q.

Section Model.

Context {lib : NetHTTP}.

(** [Header.Get], [Header.Add], [Header.Set]: the key is canonicalised. *)
Definition Header_Get (h : gmap string (list string)) (key : string) : string :=
  first_or_empty (slice_of h (CanonicalMIMEHeaderKey key)).

Definition Header_Add (h : gmap string (list string)) (key val : string)
  : gmap string (list string) :=
  <[CanonicalMIMEHeaderKey key :=
      slice_of h (CanonicalMIMEHeaderKey key) ++ [val]]> h.

Definition Header_Set (h : gmap string (list string)) (key val : string)
  : gmap string (list string) :=
  <[CanonicalMIMEHeaderKey key := [val]]> h.

Definition Request_setHeader (r : Request) (h : gmap string (list string)) : Request :=
  {| Method := Method r; URL := URL r; Header := h; Body := Body r; ctx := ctx r |}.

(** [r.Cookie(name)]: reads the lines stored under the key [Cookie]. *)
Definition Request_Cookie (r : Request) (n : string) : option string :=
  readCookie (slice_of (Header r) "Cookie") n.

(** [req.AddCookie(&http.Cookie{Name: n, Value: v})]: all cookies go on one
    [Cookie] line, separated by a semicolon and a space; the line is written
    back with [Header.Set]. *)
Definition Request_AddCookie (r : Request) (n v : string) : Request :=
  let s := cookiePair n v in
  let c := Header_Get (Header r) "Cookie" in
  if bool_decide (c ≠ "")
  then Request_setHeader r (Header_Set (Header r) "Cookie" (c +:+ "; " +:+ s))
  else Request_setHeader r (Header_Set (Header r) "Cookie" s).

(** [u.Query()] *)
Definition URL_Query (u : url_URL) : gmap string (list string) :=
  ParseQuery (RawQuery u).

Definition URL_setRawQuery (u : url_URL) (raw : string) : url_URL :=
  {| Scheme := Scheme u; Host := Host u; Path := Path u; RawQuery := raw |}.

Definition Request_setURL (r : Request) (u : url_URL) : Request :=
  {| Method := Method r; URL := Some u; Header := Header r; Body := Body r;
     ctx := ctx r |}.

(** ** [AddContextData]

    The request is mutated in place: the model returns the request as it is
    when the function returns, next to the returned error. *)

(** The [for _, v := range data.values] loop, with its early return. *)
Fixpoint addValues (vs : list ctxValue) (req : Request) : Request * option error :=
  match vs with
  | [] => (req, None)
  | v :: rest =>
      if (location v =? LocationHeader)%Z then
        addValues rest (Request_setHeader req (Header_Add (Header req) (name v) (value v)))
      else if (location v =? LocationCookie)%Z then
        addValues rest (Request_AddCookie req (name v) (value v))
      else if (location v =? LocationQueryParam)%Z then
        match URL req with
        | None => (req, Some (errorString "request has no URL set"))
        | Some u =>
            let q := Values_Add (URL_Query u) (name v) (value v) in
            addValues rest (Request_setURL req (URL_setRawQuery u (Encode q)))
        end
      else addValues rest req
  end.

(** [req.Context().Value(ctxDataName("httptrack")).(ctxData)] *)
Definition carrier (req : Request) : option ctxData :=
  match context_Value (Request_Context req) (ctxDataName "httptrack") with
  | Some (AnyCtxData data) => Some data
  | _ => None
  end.

Definition AddContextData (req : Request) : Request * option error :=
  match carrier req with
  | None => (req, Some ErrMissingContext)
  | Some data => addValues (values data) req
  end.

(** ** [NewRequestWithContext]

    [(nil, err)] is [inr err]; [(req, nil)] is [inl req]. *)

Definition NewRequestWithContext (c : option context_Context)
    (method url body : string) : Request + error :=
  match http_NewRequestWithContext c method url body with
  | inr err => inr err
  | inl req =>
      match AddContextData req with
      | (req', Some err) =>
          if errors_Is err ErrMissingContext then inl req' else inr err
      | (req', None) => inl req'
      end
  end.


(** ** [Handler]: the bind pass

    A [MissingFunc] is user code: it may read and change state of its own
    (a counter, a random source), modelled as the [World] it is run in and
    leaves behind.  It receives [*r], a copy of the inbound request, which it
    is taken to read only: the header map and the URL that the copy shares
    with the original are not written. *)

Variable World : Type.

Record Value : Type := mkValue {
  InboundLocation : Z;
  InboundName : string;
  OutboundLocation : Z;
  OutboundName : string;
  MissingFunc : option (string → Request → World → string * World)
}.

Record Options : Type := mkOptions { }.

(** The loop variables: [ctxValues], the world of the fallbacks, and a ghost
    log [calls] that records the position of the rule at every call of a
    [MissingFunc]. *)
Record bindState : Type := mkBindState {
  ctxValues : list ctxValue;
  world : World;
  calls : list nat
}.

(** The [switch v.InboundLocation] of the loop body: what [outboundValue]
    holds before the fallback is considered. *)
Definition inboundValue (r : Request) (v : Value) : string :=
  if (InboundLocation v =? LocationHeader)%Z then
    let val := Header_Get (Header r) (InboundName v) in
    if bool_decide (val ≠ "") then val else ""
  else if (InboundLocation v =? LocationCookie)%Z then
    match Request_Cookie r (InboundName v) with
    | Some cookieValue => if bool_decide (cookieValue ≠ "") then cookieValue else ""
    | None => ""
    end
  else if (InboundLocation v =? LocationQueryParam)%Z then
    match URL r with
    | Some u =>
        let val := Values_Get (URL_Query u) (InboundName v) in
        if bool_decide (val ≠ "") then val else ""
    | None => ""
    end
  else "".

(** One iteration of [for _, v := range values], for the rule at position
    [i]. *)
Definition bindRule (r : Request) (i : nat) (v : Value) (st : bindState) : bindState :=
  let outboundValue := inboundValue r v in
  let '(outboundValue, w, log) :=
    if bool_decide (outboundValue = "") then
      match MissingFunc v with
      | Some f =>
          let '(s, w') := f (OutboundName v) r (world st) in
          (s, w', calls st ++ [i])
      | None => (outboundValue, world st, calls st)
      end
    else (outboundValue, world st, calls st) in
  if bool_decide (outboundValue ≠ "") then
    {| ctxValues := ctxValues st ++
         [ {| location := OutboundLocation v; name := OutboundName v;
              value := outboundValue |} ];
       world := w; calls := log |}
  else {| ctxValues := ctxValues st; world := w; calls := log |}.

Fixpoint bindFrom (r : Request) (i : nat) (rules : list Value) (st : bindState)
  : bindState :=
  match rules with
  | [] => st
  | v :: rest => bindFrom r (S i) rest (bindRule r i v st)
  end.

(** The whole pass, from [var ctxValues []ctxValue]. *)
Definition bind (r : Request) (rules : list Value) (w : World) : bindState :=
  bindFrom r 0 rules {| ctxValues := []; world := w; calls := [] |}.

(** The context [Handler] derives for the downstream handler. *)
Definition handlerContext (r : Request) (vals : list ctxValue) : context_Context :=
  context_WithValue (Request_Context r) (ctxDataName "httptrack")
    (AnyCtxData {| values := vals |}).

(** An [http.Handler] serves a request in a world (the response writer is
    part of it). *)
Definition Handler (next : Request → World → World) (options : Options)
    (rules : list Value) : Request → World → World :=
  fun r w =>
    let st := bind r rules w in
    next (Request_WithContext r (handlerContext r (ctxValues st))) (world st).

End Model.

Arguments mkValue {World}.
Arguments InboundLocation {World}.
Arguments InboundName {World}.
Arguments OutboundLocation {World}.
Arguments OutboundName {World}.
Arguments MissingFunc {World}.
Arguments mkBindState {World}.
Arguments ctxValues {World}.
Arguments world {World}.
Arguments calls {World}.
Arguments inboundValue {lib World}.
Arguments bindRule {lib World}.
Arguments bindFrom {lib World}.
Arguments bind {lib World}.
Arguments Handler {lib World}.

(** ** [Get] and [Post]

    [http.Client.Do] is the transport: it takes the request and the state of
    the network, and returns the pair [(resp, err)] with the state it leaves.
    [Get] and [Post] return that pair as it is. *)

Section Client.

Context {lib : NetHTTP}.

Variables (Response Net : Type).

Variable client_Do : Request → Net → (option Response * option error) * Net.

(** [Get(ctx, url)]: the body is nil. *)
Definition Get (c : option context_Context) (url : string) (net : Net)
  : (option Response * option error) * Net :=
  match NewRequestWithContext c "GET" url "" with
  | inr err => ((None, Some err), net)
  | inl req => client_Do req net
  end.

(** [Post(ctx, url, contentType, body)] *)
Definition Post (c : option context_Context) (url contentType body : string)
    (net : Net) : (option Response * option error) * Net :=
  match NewRequestWithContext c "POST" url body with
  | inr err => ((None, Some err), net)
  | inl req =>
      client_Do
        (Request_setHeader req (Header_Add (Header req) "Content-Type" contentType))
        net
  end.

End Client.

Arguments Get {lib Response Net}.
Arguments Post {lib Response Net}.

(** ** A plain instance of the library interface

    An executable instance on which the model runs on examples.  Header keys
    are canonicalised and query strings are parsed and percent-encoded as
    [net/textproto] and [net/url] do; cookie lines are read and written
    without quoting or sanitising, and a URL is only split at its question
    mark: the instance is exact on cookie names, cookie values and paths made
    of letters, digits and hyphens. *)

Module Plain.

Definition isLower (c : ascii) : bool :=
  (97 <=? N_of_ascii c)%N && (N_of_ascii c <=? 122)%N.

Definition isUpper (c : ascii) : bool :=
  (65 <=? N_of_ascii c)%N && (N_of_ascii c <=? 90)%N.

Definition isDigit (c : ascii) : bool :=
  (48 <=? N_of_ascii c)%N && (N_of_ascii c <=? 57)%N.

Definition toUpper (c : ascii) : ascii :=
  if isLower c then ascii_of_N (N_of_ascii c - 32) else c.

Definition toLower (c : ascii) : ascii :=
  if isUpper c then ascii_of_N (N_of_ascii c + 32) else c.

(** The token bytes of RFC 7230, as [validHeaderFieldByte] has them. *)
Definition validHeaderFieldByte (c : ascii) : bool :=
  isLower c || isUpper c || isDigit c ||
  bool_decide (c ∈ ["!"; "#"; "$"; "%"; "&"; "'"; "*"; "+"; "-"; "."; "^";
                    "_"; "`"; "|"; "~"]%char).

Fixpoint allBytes (p : ascii → bool) (s : string) : bool :=
  match s with
  | EmptyString => true
  | String c rest => p c && allBytes p rest
  end.

(** Upper case at the start and after each hyphen, lower case elsewhere. *)
Fixpoint canonicalise (upper : bool) (s : string) : string :=
  match s with
  | EmptyString => EmptyString
  | String c rest =>
      let c' := if upper then toUpper c else toLower c in
      String c' (canonicalise (bool_decide (c' = "-"%char)) rest)
  end.

(** A key with a byte that is no token byte is returned unchanged. *)
Definition CanonicalMIMEHeaderKey (s : string) : string :=
  if allBytes validHeaderFieldByte s then canonicalise true s else s.

(** [strings.Cut s sep] *)
Fixpoint cut (sep : ascii) (s : string) : string * string :=
  match s with
  | EmptyString => (EmptyString, EmptyString)
  | String c rest =>
      if bool_decide (c = sep) then (EmptyString, rest)
      else let '(before, after) := cut sep rest in (String c before, after)
  end.

(** [strings.Split s sep] *)
Fixpoint split (sep : ascii) (s : string) : list string :=
  match s with
  | EmptyString => [EmptyString]
  | String c rest =>
      if bool_decide (c = sep) then EmptyString :: split sep rest
      else match split sep rest with
           | piece :: pieces => String c piece :: pieces
           | [] => [String c EmptyString]
           end
  end.

Fixpoint trimLeft (s : string) : string :=
  match s with
  | String c rest => if bool_decide (c = " "%char) then trimLeft rest else s
  | EmptyString => EmptyString
  end.

Definition trimSpace (s : string) : string :=
  String.rev (trimLeft (String.rev (trimLeft s))).

Fixpoint join (sep : ascii) (pieces : list string) : string :=
  match pieces with
  | [] => ""
  | [piece] => piece
  | piece :: rest => piece +:+ String sep (join sep rest)
  end.

(** The cookies of the [Cookie] lines, in order: each line is split at its
    semicolons, each part at its first equals sign. *)
Definition cookiesOf (lines : list string) : list (string * string) :=
  line ← lines;
  part ← split ";" (trimSpace line);
  if bool_decide (trimSpace part = "") then []
  else let '(n, v) := cut "=" (trimSpace part) in [(trimSpace n, v)].

Definition readCookie (lines : list string) (n : string) : option string :=
  if bool_decide (n = "") then None
  else snd <$> head (filter (λ c, fst c = n) (cookiesOf lines)).

Definition cookiePair (n v : string) : string := n +:+ "=" +:+ v.

(** [url.QueryEscape]: letters, digits and [-_.~] stand for themselves, a
    space is written [+], any other byte [%XX]. *)
Definition unreserved (c : ascii) : bool :=
  isLower c || isUpper c || isDigit c ||
  bool_decide (c ∈ ["-"; "_"; "."; "~"]%char).

Definition upperhex (n : N) : ascii :=
  if (n <? 10)%N then ascii_of_N (48 + n) else ascii_of_N (55 + n).

Definition unhex (c : ascii) : option N :=
  if isDigit c then Some (N_of_ascii c - 48)%N
  else if (97 <=? N_of_ascii c)%N && (N_of_ascii c <=? 102)%N
       then Some (N_of_ascii c - 87)%N
  else if (65 <=? N_of_ascii c)%N && (N_of_ascii c <=? 70)%N
       then Some (N_of_ascii c - 55)%N
  else None.

Fixpoint QueryEscape (s : string) : string :=
  match s with
  | EmptyString => EmptyString
  | String c rest =>
      if unreserved c then String c (QueryEscape rest)
      else if bool_decide (c = " "%char) then String "+" (QueryEscape rest)
      else String "%" (String (upperhex (N_of_ascii c / 16))
                         (String (upperhex (N_of_ascii c mod 16))
                            (QueryEscape rest)))
  end.

(** [url.QueryUnescape]: [None] for a percent sign that two hexadecimal
    digits do not follow. *)
Fixpoint QueryUnescape (s : string) : option string :=
  match s with
  | EmptyString => Some EmptyString
  | String c rest =>
      if bool_decide (c = "%"%char) then
        match rest with
        | String a (String b rest') =>
            match unhex a, unhex b, QueryUnescape rest' with
            | Some h, Some l, Some t => Some (String (ascii_of_N (16 * h + l)) t)
            | _, _, _ => None
            end
        | _ => None
        end
      else if bool_decide (c = "+"%char) then String " " <$> QueryUnescape rest
      else String c <$> QueryUnescape rest
  end.

Definition isNot (sep : ascii) (c : ascii) : bool := negb (bool_decide (c = sep)).

Definition separator (c : ascii) : bool :=
  bool_decide (c ∈ ["&"; "="; ";"]%char).

(** One [key=value] part of a query: a part with a semicolon, an empty part
    and a part that does not unescape are dropped. *)
Definition addPart (q : gmap string (list string)) (part : string)
  : gmap string (list string) :=
  if negb (allBytes (isNot ";") part) then q
  else if bool_decide (part = "") then q
  else
    let '(k, v) := cut "=" part in
    match QueryUnescape k, QueryUnescape v with
    | Some k', Some v' => Values_Add q k' v'
    | _, _ => q
    end.

Definition ParseQuery (raw : string) : gmap string (list string) :=
  foldl addPart ∅ (split "&" raw).

Definition encodePair (k v : string) : string :=
  QueryEscape k +:+ String "=" (QueryEscape v).

(** The keys in increasing order, each with its values in order. *)
Definition Encode (q : gmap string (list string)) : string :=
  join "&"
    (k ← merge_sort String.le (fst <$> map_to_list q);
     encodePair k <$> slice_of q k).

(** A URL is split at its first question mark; a method must be a token; the
    context must not be nil.  The new request has an empty header map. *)
Definition http_NewRequestWithContext (c : option context_Context)
    (method url body : string) : Request + error :=
  let method := if bool_decide (method = "") then "GET" else method in
  if negb (allBytes validHeaderFieldByte method) then
    inr (errorString "net/http: invalid method")
  else
    match c with
    | None => inr (errorString "net/http: nil Context")
    | Some c' =>
        let '(path, raw) := cut "?" url in
        inl {| Method := method;
               URL := Some {| Scheme := ""; Host := ""; Path := path;
                              RawQuery := raw |};
               Header := ∅; Body := body; ctx := Some c' |}
    end.

End Plain.

Definition plainHTTP : NetHTTP :=
  {| CanonicalMIMEHeaderKey := Plain.CanonicalMIMEHeaderKey;
     readCookie := Plain.readCookie;
     cookiePair := Plain.cookiePair;
     ParseQuery := Plain.ParseQuery;
     Encode := Plain.Encode;
     http_NewRequestWithContext := Plain.http_NewRequestWithContext |}.

(** ** What a run is observed by

    Definitions used to state the properties: none of them is part of the
    package. *)

(** A context obtained from [c0] by binding keys of other packages only. *)
Inductive derived (c0 : context_Context) : context_Context → Prop :=
  | derived_refl : derived c0 c0
  | derived_foreign c k v :
      derived c0 c → derived c0 (context_WithValue c (foreignKey k) v).

(** The number of calls the ghost log holds for the rule at position [i]. *)
Definition invocations (i : nat) (log : list nat) : nat :=
  length (filter (λ j, j = i) log).

(** The triples [addValues] handles before it returns: all of them, or, on a
    request without URL, those before the first query-parameter triple. *)
Fixpoint handled (withURL : bool) (vs : list ctxValue) : list ctxValue :=
  match vs with
  | [] => []
  | v :: rest =>
      if (location v =? LocationQueryParam)%Z && negb withURL then []
      else v :: handled withURL rest
  end.

Definition hasURL (req : Request) : bool :=
  match URL req with
  | Some _ => true
  | None => false
  end.

Definition rawQueryOf (req : Request) : string :=
  match URL req with
  | Some u => RawQuery u
  | None => ""
  end.

(** Two requests whose URLs agree on every part but [RawQuery], or which
    both have none. *)
Definition sameAddress (req req' : Request) : Prop :=
  match URL req, URL req' with
  | Some u, Some u' => Scheme u' = Scheme u ∧ Host u' = Host u ∧ Path u' = Path u
  | None, None => True
  | _, _ => False
  end.

Section Observations.

Context {lib : NetHTTP}.

(** The key under which [Header.Get] and [Header.Set] find the cookie line. *)
Definition cookieKey : string := CanonicalMIMEHeaderKey "Cookie".

(** The values of the header triples of [vs] that land under key [k], in
    order. *)
Definition headerWrites (k : string) (vs : list ctxValue) : list string :=
  value <$>
    filter (λ v, location v = LocationHeader ∧ CanonicalMIMEHeaderKey (name v) = k) vs.

(** The pairs of the cookie triples of [vs], in order. *)
Definition cookieWrites (vs : list ctxValue) : list string :=
  (λ v, cookiePair (name v) (value v)) <$>
    filter (λ v, location v = LocationCookie) vs.

(** The query-parameter triples of [vs], in order. *)
Definition queryWrites (vs : list ctxValue) : list ctxValue :=
  filter (λ v, location v = LocationQueryParam) vs.

Definition appendCookie (line pair : string) : string :=
  if bool_decide (line ≠ "") then line +:+ "; " +:+ pair else pair.

(** Parse, append, encode again. *)
Definition requery (raw : string) (v : ctxValue) : string :=
  Encode (Values_Add (ParseQuery raw) (name v) (value v)).

(** The values of the query-parameter triples of [vs] named [k], in order. *)
Definition queryValues (k : string) (vs : list ctxValue) : list string :=
  value <$> filter (λ v, name v = k) (queryWrites vs).

(** Parsing an encoded query gives back the values of every key, as
    [url.ParseQuery] does on the output of [Values.Encode]. *)
Definition lawfulQuery : Prop :=
  ∀ (q : gmap string (list string)) (k : string),
    slice_of (ParseQuery (Encode q)) k = slice_of q k.

(** The write of one handled triple. *)
Definition writeValue (req : Request) (v : ctxValue) : Request :=
  if decide (location v = LocationHeader) then
    Request_setHeader req (Header_Add (Header req) (name v) (value v))
  else if decide (location v = LocationCookie) then
    Request_AddCookie req (name v) (value v)
  else if decide (location v = LocationQueryParam) then
    match URL req with
    | Some u => Request_setURL req (URL_setRawQuery u (requery (RawQuery u) v))
    | None => req
    end
  else req.

(** An outbound field that is not the [Cookie] header written as a header. *)
Definition offCookieKey (f : Z * string) : Prop :=
  ¬ (f.1 = LocationHeader ∧ CanonicalMIMEHeaderKey f.2 = cookieKey).

(** The error [addValues] returns on [vs]. *)
Definition replayError (withURL : bool) (vs : list ctxValue) : option error :=
  if withURL || bool_decide (Forall (λ v, location v ≠ LocationQueryParam) vs)
  then None
  else Some (errorString "request has no URL set").

End Observations.

(** The bind pass, rule by rule: what the loop of [Handler] computes,
    written as functions of the rule list. *)

Section BindObservations.

Context {lib : NetHTTP} {World : Type}.

(** The fallback of the rule is called: the inbound value is absent or empty
    and a fallback is configured. *)
Definition invoked (r : Request) (v : Value World) : bool :=
  bool_decide (inboundValue r v = "") && bool_decide (is_Some (MissingFunc v)).

(** The value the rule resolves to in world [w], and the world it leaves. *)
Definition resolve (r : Request) (v : Value World) (w : World) : string * World :=
  if bool_decide (inboundValue r v = "") then
    match MissingFunc v with
    | Some f => f (OutboundName v) r w
    | None => (inboundValue r v, w)
    end
  else (inboundValue r v, w).

(** The triple of the rule for a resolved value: none for the empty string. *)
Definition emit (v : Value World) (s : string) : list ctxValue :=
  if bool_decide (s ≠ "") then
    [ {| location := OutboundLocation v; name := OutboundName v; value := s |} ]
  else [].

Fixpoint triples (r : Request) (rules : list (Value World)) (w : World)
  : list ctxValue :=
  match rules with
  | [] => []
  | v :: rest =>
      let '(s, w') := resolve r v w in emit v s ++ triples r rest w'
  end.

Fixpoint worldAfter (r : Request) (rules : list (Value World)) (w : World) : World :=
  match rules with
  | [] => w
  | v :: rest => worldAfter r rest (snd (resolve r v w))
  end.

(** The positions, from [i] on, of the rules whose fallback is called. *)
Fixpoint callers (r : Request) (i : nat) (rules : list (Value World)) : list nat :=
  match rules with
  | [] => []
  | v :: rest => (if invoked r v then [i] else []) ++ callers r (S i) rest
  end.

(** The outbound field a rule writes to, and the one a triple is for. *)
Definition target (v : Value World) : Z * string :=
  (OutboundLocation v, OutboundName v).

Definition field (t : ctxValue) : Z * string := (location t, name t).

(** Triple [t] is the one of the rule at position [i] of [rules], resolved
    in the world the rules before it leave. *)
Definition fromRule (r : Request) (rules : list (Value World)) (w : World)
    (t : ctxValue) (i : nat) : Prop :=
  ∃ v, rules !! i = Some v ∧ field t = target v ∧
       value t = fst (resolve r v (worldAfter r (take i rules) w)).

(** The fallback of the rule, if any, returns the same value in every
    world. *)
Definition stateless (r : Request) (v : Value World) : Prop :=
  ∀ f, MissingFunc v = Some f →
       ∀ w1 w2, fst (f (OutboundName v) r w1) = fst (f (OutboundName v) r w2).

End BindObservations.

(** ** Inputs of the test suite, and a few more

    The fallbacks run in a world that is a counter. *)

(** The inbound request of [TestHandler]:
    [GET /test?query=query-value], with a header and a cookie. *)
Definition testRequest : Request :=
  {| Method := "GET";
     URL := Some {| Scheme := ""; Host := ""; Path := "/test";
                    RawQuery := "query=query-value" |};
     Header := {[ "X-Header" := ["header-value"];
                  "Cookie" := ["cookie=cookie-value"] ]};
     Body := ""; ctx := None |}.

Definition trackValues : list (Value nat) :=
  [ mkValue LocationHeader "x-header" LocationHeader "x-new-header" None;
    mkValue LocationQueryParam "query" LocationQueryParam "new-query" None;
    mkValue LocationCookie "cookie" LocationCookie "new-cookie" None ].

(** The inbound request of [TestMissingFunc] and [TestNoContext]: [GET /],
    nothing else. *)
Definition emptyRequest : Request :=
  {| Method := "GET";
     URL := Some {| Scheme := ""; Host := ""; Path := "/"; RawQuery := "" |};
     Header := ∅; Body := ""; ctx := None |}.

(** The fallback of [TestMissingFunc]. *)
Definition blah (n : string) (r : Request) (w : nat) : string * nat := ("blah", w).

Definition missingRule : Value nat :=
  mkValue LocationHeader "x-header" LocationHeader "x-header" (Some blah).

(** A fallback that makes a new identifier at each call, the use the
    documentation of [MissingFunc] gives for it. *)
Definition freshID (n : string) (r : Request) (w : nat) : string * nat :=
  ("id-" +:+ pretty w, S w).

Definition freshRule : Value nat :=
  mkValue LocationHeader "x-tracking-id" LocationHeader "x-tracking-id" (Some freshID).

(** The rule of [TestNoContext]: no fallback. *)
Definition plainRule : Value nat :=
  mkValue LocationHeader "x-header" LocationHeader "x-new-header" None.

(** A fallback that returns the empty string. *)
Definition silent (n : string) (r : Request) (w : nat) : string * nat := ("", S w).

Definition silentRule : Value nat :=
  mkValue LocationCookie "session-id" LocationHeader "x-client-session-id" (Some silent).

(** What [http.NewRequestWithContext(context.Background(), "GET", "/", nil)]
    builds ([TestLostContext]). *)
Definition lostRequest : Request :=
  {| Method := "GET";
     URL := Some {| Scheme := ""; Host := ""; Path := "/"; RawQuery := "" |};
     Header := ∅; Body := ""; ctx := Some context_Background |}.

Definition headerTriple : ctxValue :=
  {| location := LocationHeader; name := "x-new-header"; value := "header-value" |}.

Definition cookieTriple : ctxValue :=
  {| location := LocationCookie; name := "new-cookie"; value := "cookie-value" |}.

Definition queryTriple : ctxValue :=
  {| location := LocationQueryParam; name := "new-query"; value := "query-value" |}.

Definition strayTriple : ctxValue :=
  {| location := 7%Z; name := "stray"; value := "value" |}.

(** A context as [Handler] derives it, for a given carrier. *)
Definition carrying (vals : list ctxValue) : context_Context :=
  handlerContext lostRequest vals.

(** An outbound request [GET /downstream?a=1] with one header. *)
Definition downstream (c : context_Context) : Request :=
  {| Method := "GET";
     URL := Some {| Scheme := ""; Host := ""; Path := "/downstream";
                    RawQuery := "a=1" |};
     Header := {[ "Accept" := ["*/*"] ]}; Body := ""; ctx := Some c |}.

(** A request literal: no URL, an empty header map. *)
Definition bareRequest (c : context_Context) : Request :=
  {| Method := "GET"; URL := None; Header := ∅; Body := ""; ctx := Some c |}.

(** An outbound request that carries two [Cookie] lines. *)
Definition twoCookieLines (c : context_Context) : Request :=
  {| Method := "GET";
     URL := Some {| Scheme := ""; Host := ""; Path := "/"; RawQuery := "" |};
     Header := {[ "Cookie" := ["a=1"; "b=2"] ]}; Body := ""; ctx := Some c |}.

(** The plain instance with a constructor that leaves the URL unset, as a
    request literal does: it reaches the branch of [NewRequestWithContext]
    that the constructor of [net/http], which always sets the URL, never
    reaches. *)
Definition bareHTTP : NetHTTP :=
  {| CanonicalMIMEHeaderKey := Plain.CanonicalMIMEHeaderKey;
     readCookie := Plain.readCookie;
     cookiePair := Plain.cookiePair;
     ParseQuery := Plain.ParseQuery;
     Encode := Plain.Encode;
     http_NewRequestWithContext := λ c method url body,
       match c with
       | None => inr (errorString "net/http: nil Context")
       | Some c' =>
           inl {| Method := method; URL := None; Header := ∅; Body := body;
                  ctx := Some c' |}
       end |}.

(** A transport that records the requests it is given and answers each with
    the request itself. *)
Definition echoDo (req : Request) (net : list Request)
  : (option Request * option error) * list Request :=
  ((Some req, None), net ++ [req]).

(** A rule that tracks the content type of the inbound request. *)
Definition contentTypeRule : Value nat :=
  mkValue LocationHeader "content-type" LocationHeader "content-type" None.

(** The inbound request of a JSON upload. *)
Definition uploadRequest : Request :=
  {| Method := "POST";
     URL := Some {| Scheme := ""; Host := ""; Path := "/upload"; RawQuery := "" |};
     Header := {[ "Content-Type" := ["application/json"] ]};
     Body := "{}"; ctx := None |}.


(** A rule whose inbound location is none of the three constants. *)
Definition nowhereRule : Value nat :=
  mkValue 0%Z "x-tracking-id" LocationHeader "x-tracking-id" (Some freshID).

(** A rule that reads a query parameter and writes a query parameter. *)
Definition queryRule : Value nat :=
  mkValue LocationQueryParam "query" LocationQueryParam "new-query" None.

(** An inbound request without URL. *)
Definition noURLRequest : Request :=
  {| Method := "GET"; URL := None; Header := ∅; Body := ""; ctx := None |}.

(** ** Properties of [AddContextData] *)

Section Replay.

Context {lib : NetHTTP}.

Lemma string_app_cons a (s t : string) : String a s +:+ t = String a (s +:+ t).
Proof. reflexivity. Qed.

Lemma string_app_nil_r (s : string) : s +:+ "" = s.
Proof. induction s as [|a s IH]; [done|]. by rewrite string_app_cons, IH. Qed.

Lemma string_app_assoc (s t u : string) : (s +:+ t) +:+ u = s +:+ (t +:+ u).
Proof. induction s as [|a s IH]; [done|]. by rewrite !string_app_cons, IH. Qed.

Lemma slice_of_insert (h : gmap string (list string)) (k k' : string) (l : list string) :
  slice_of (<[k := l]> h) k' = if decide (k = k') then l else slice_of h k'.
Proof.
  unfold slice_of. rewrite lookup_insert. by case_decide.
Qed.

Lemma Z_eqb_decide (a b : Z) : (a =? b)%Z = bool_decide (a = b).
Proof.
  destruct (Z.eqb_spec a b);
    [by rewrite bool_decide_eq_true_2 | by rewrite bool_decide_eq_false_2].
Qed.

(** The unfolding of one iteration, by the location of the triple. *)
Lemma addValues_header v rest req :
  location v = LocationHeader →
  addValues (v :: rest) req =
  addValues rest (Request_setHeader req (Header_Add (Header req) (name v) (value v))).
Proof. intros Hl. simpl. by rewrite Hl. Qed.

Lemma addValues_cookie v rest req :
  location v = LocationCookie →
  addValues (v :: rest) req = addValues rest (Request_AddCookie req (name v) (value v)).
Proof. intros Hl. simpl. by rewrite Hl. Qed.

Lemma addValues_query_nil v rest req :
  location v = LocationQueryParam → URL req = None →
  addValues (v :: rest) req = (req, Some (errorString "request has no URL set")).
Proof. intros Hl Hu. simpl. by rewrite Hl, Hu. Qed.

Lemma addValues_query v rest req u :
  location v = LocationQueryParam → URL req = Some u →
  addValues (v :: rest) req =
  addValues rest (Request_setURL req (URL_setRawQuery u (requery (RawQuery u) v))).
Proof. intros Hl Hu. simpl. by rewrite Hl, Hu. Qed.

Lemma addValues_other v rest req :
  location v ≠ LocationHeader → location v ≠ LocationCookie →
  location v ≠ LocationQueryParam →
  addValues (v :: rest) req = addValues rest req.
Proof.
  intros H1 H2 H3. simpl. rewrite !Z_eqb_decide.
  by rewrite !bool_decide_eq_false_2.
Qed.

(** Case analysis on the location of a triple. *)
Lemma location_cases (v : ctxValue) :
  location v = LocationHeader ∨ location v = LocationCookie ∨
  location v = LocationQueryParam ∨
  (location v ≠ LocationHeader ∧ location v ≠ LocationCookie ∧
   location v ≠ LocationQueryParam).
Proof.
  destruct (decide (location v = LocationHeader)); [by left|].
  destruct (decide (location v = LocationCookie)); [by right; left|].
  destruct (decide (location v = LocationQueryParam)); [by right; right; left|].
  by right; right; right.
Qed.

Lemma hasURL_writeValue req v : hasURL (writeValue req v) = hasURL req.
Proof.
  unfold writeValue, hasURL, Request_AddCookie.
  repeat case_decide; try case_bool_decide; simpl; try done.
  destruct (URL req) eqn:Hu; simpl; by rewrite ?Hu.
Qed.

Lemma handled_with_URL vs : handled true vs = vs.
Proof.
  induction vs as [|v vs IH]; simpl; [done|].
  by rewrite andb_false_r, IH.
Qed.

(** The loop is the fold of [writeValue] over the handled triples, with
    the error decided by the request and the locations alone. *)
Lemma addValues_fold vs req :
  addValues vs req =
  (foldl writeValue req (handled (hasURL req) vs), replayError (hasURL req) vs).
Proof.
  revert req. induction vs as [|v vs IH]; intros req.
  - simpl. unfold replayError. rewrite bool_decide_eq_true_2 by constructor.
    by rewrite orb_true_r.
  - assert (Hstep : ∀ req1, req1 = writeValue req v →
              location v ≠ LocationQueryParam ∨ hasURL req = true →
              addValues vs req1 =
              (foldl writeValue req (handled (hasURL req) (v :: vs)),
               replayError (hasURL req) (v :: vs))).
    { intros req1 -> Hq. rewrite IH, hasURL_writeValue. simpl.
      assert ((location v =? LocationQueryParam)%Z && negb (hasURL req) = false) as ->.
      { rewrite Z_eqb_decide. destruct Hq as [Hq| ->].
        - by rewrite bool_decide_eq_false_2.
        - by rewrite andb_false_r. }
      simpl. f_equal. unfold replayError.
      destruct (hasURL req) eqn:Hu; simpl; [done|].
      destruct Hq as [Hq|Hq]; [|done].
      assert (bool_decide (Forall (λ v0, location v0 ≠ LocationQueryParam) (v :: vs)) =
              bool_decide (Forall (λ v0, location v0 ≠ LocationQueryParam) vs)) as ->;
        [|done].
      apply bool_decide_ext. rewrite Forall_cons. tauto. }
    destruct (location_cases v) as [Hl|[Hl|[Hl|(H1 & H2 & H3)]]].
    + rewrite addValues_header by done. apply Hstep.
      * unfold writeValue. by rewrite decide_True.
      * left. rewrite Hl. done.
    + rewrite addValues_cookie by done. apply Hstep.
      * unfold writeValue. rewrite decide_False, decide_True; [done..|].
        by rewrite Hl.
      * left. by rewrite Hl.
    + destruct (URL req) as [u|] eqn:Hu.
      * rewrite (addValues_query _ _ _ u) by done. apply Hstep.
        -- unfold writeValue.
           rewrite decide_False, decide_False, decide_True, Hu; [done..| |];
             by rewrite Hl.
        -- right. unfold hasURL. by rewrite Hu.
      * rewrite addValues_query_nil by done.
        unfold hasURL. rewrite Hu. simpl.
        rewrite Hl, Z.eqb_refl. simpl. f_equal.
        unfold replayError. simpl.
        rewrite bool_decide_eq_false_2; [done|].
        intros HF. by inversion HF.
    + rewrite addValues_other by done. apply Hstep.
      * unfold writeValue. by rewrite !decide_False.
      * by left.
Qed.

(** *** What one write changes *)

Lemma writeValue_fields req v :
  Method (writeValue req v) = Method req ∧
  Body (writeValue req v) = Body req ∧
  ctx (writeValue req v) = ctx req.
Proof.
  unfold writeValue, Request_AddCookie.
  repeat case_decide; try case_bool_decide; simpl; try done.
  by destruct (URL req).
Qed.

Lemma writeValue_headers req v k :
  k ≠ cookieKey ∨ location v ≠ LocationCookie →
  slice_of (Header (writeValue req v)) k =
  slice_of (Header req) k ++ headerWrites k [v].
Proof.
  intros Hk. unfold writeValue, headerWrites.
  destruct (decide (location v = LocationHeader)) as [Hl|Hl].
  - simpl. unfold Header_Add. rewrite slice_of_insert.
    destruct (decide (CanonicalMIMEHeaderKey (name v) = k)) as [Hn|Hn].
    + rewrite filter_cons_True by done. by rewrite Hn.
    + rewrite filter_cons_False by tauto. simpl. by rewrite app_nil_r.
  - rewrite filter_cons_False by tauto. simpl. rewrite app_nil_r.
    destruct (decide (location v = LocationCookie)) as [Hc|Hc].
    + destruct Hk as [Hk|Hk]; [|done].
      unfold Request_AddCookie, Header_Set. fold cookieKey.
      case_bool_decide; simpl; by rewrite slice_of_insert, decide_False.
    + case_decide; [|done]. by destruct (URL req).
Qed.

Lemma writeValue_cookie_line req v :
  ∃ more, Header_Get (Header (writeValue req v)) "Cookie" =
          Header_Get (Header req) "Cookie" +:+ more.
Proof.
  unfold writeValue.
  assert (Hsame : ∃ more, Header_Get (Header req) "Cookie" =
                          Header_Get (Header req) "Cookie" +:+ more).
  { exists "". by rewrite string_app_nil_r. }
  destruct (decide (location v = LocationHeader)).
  - simpl. unfold Header_Get, Header_Add. rewrite slice_of_insert.
    case_decide as Hk; [|done]. rewrite Hk.
    destruct (slice_of (Header req) (CanonicalMIMEHeaderKey "Cookie")); simpl;
      [by eexists|].
    exists "". by rewrite string_app_nil_r.
  - destruct (decide (location v = LocationCookie)).
    + unfold Request_AddCookie. case_bool_decide as Hc; simpl.
      * unfold Header_Get at 1, Header_Set. rewrite slice_of_insert, decide_True by done.
        simpl. by eexists.
      * unfold Header_Get at 1, Header_Set. rewrite slice_of_insert, decide_True by done.
        simpl. rewrite Hc. by eexists.
    + case_decide; [|done]. by destruct (URL req).
Qed.

Lemma writeValue_cookie_pair req v :
  ¬ (location v = LocationHeader ∧ CanonicalMIMEHeaderKey (name v) = cookieKey) →
  Header_Get (Header (writeValue req v)) "Cookie" =
  foldl appendCookie (Header_Get (Header req) "Cookie") (cookieWrites [v]).
Proof.
  intros Hv. unfold writeValue, cookieWrites.
  destruct (decide (location v = LocationHeader)) as [Hl|Hl].
  - rewrite filter_cons_False by (rewrite Hl; done). simpl.
    unfold Header_Get, Header_Add. rewrite slice_of_insert, decide_False; [done|].
    intros Hk. apply Hv. by split.
  - destruct (decide (location v = LocationCookie)) as [Hc|Hc].
    + rewrite filter_cons_True by done. simpl.
      unfold Request_AddCookie, appendCookie.
      case_bool_decide; simpl; unfold Header_Get at 1, Header_Set;
        by rewrite slice_of_insert, decide_True.
    + rewrite filter_cons_False by done. simpl.
      case_decide; [|done]. by destruct (URL req).
Qed.

(** A cookie write leaves one [Cookie] line, whatever lines there were. *)
Lemma writeValue_cookie_single_line req v :
  location v = LocationCookie →
  slice_of (Header (writeValue req v)) cookieKey =
  [appendCookie (Header_Get (Header req) "Cookie") (cookiePair (name v) (value v))].
Proof.
  intros Hc. unfold writeValue.
  rewrite decide_False by (rewrite Hc; done). rewrite decide_True by done.
  unfold Request_AddCookie, appendCookie, Header_Set. fold cookieKey.
  case_bool_decide; simpl; by rewrite slice_of_insert, decide_True.
Qed.

Lemma writeValue_query req v :
  rawQueryOf (writeValue req v) =
  if hasURL req then foldl requery (rawQueryOf req) (queryWrites [v])
  else rawQueryOf req.
Proof.
  unfold writeValue, queryWrites, rawQueryOf, hasURL.
  destruct (decide (location v = LocationHeader)) as [Hl|Hl].
  { rewrite filter_cons_False by (rewrite Hl; done). simpl. destruct (URL req) eqn:Hu; simpl; by rewrite ?Hu. }
  destruct (decide (location v = LocationCookie)) as [Hc|Hc].
  { rewrite filter_cons_False by (rewrite Hc; done).
    unfold Request_AddCookie. case_bool_decide; simpl; destruct (URL req) eqn:Hu; simpl; by rewrite ?Hu. }
  destruct (decide (location v = LocationQueryParam)) as [Hq|Hq].
  - rewrite filter_cons_True by done. destruct (URL req) eqn:Hu; simpl; by rewrite ?Hu.
  - rewrite filter_cons_False by done. destruct (URL req) eqn:Hu; simpl; by rewrite ?Hu.
Qed.

Lemma sameAddress_refl req : sameAddress req req.
Proof. unfold sameAddress. by destruct (URL req). Qed.

Lemma sameAddress_trans r1 r2 r3 :
  sameAddress r1 r2 → sameAddress r2 r3 → sameAddress r1 r3.
Proof.
  unfold sameAddress.
  destruct (URL r1), (URL r2), (URL r3); simpl; intuition congruence.
Qed.

Lemma writeValue_address req v : sameAddress req (writeValue req v).
Proof.
  unfold writeValue, Request_AddCookie, sameAddress.
  repeat case_decide; try case_bool_decide; simpl;
    destruct (URL req) eqn:Hu; simpl; rewrite ?Hu; done.
Qed.

(** *** What a sequence of writes changes *)

Lemma headerWrites_app k vs1 vs2 :
  headerWrites k (vs1 ++ vs2) = headerWrites k vs1 ++ headerWrites k vs2.
Proof. unfold headerWrites. by rewrite filter_app, fmap_app. Qed.

Lemma cookieWrites_app vs1 vs2 :
  cookieWrites (vs1 ++ vs2) = cookieWrites vs1 ++ cookieWrites vs2.
Proof. unfold cookieWrites. by rewrite filter_app, fmap_app. Qed.

Lemma queryWrites_app vs1 vs2 :
  queryWrites (vs1 ++ vs2) = queryWrites vs1 ++ queryWrites vs2.
Proof. unfold queryWrites. by rewrite filter_app. Qed.

Lemma writes_fields vs req :
  Method (foldl writeValue req vs) = Method req ∧
  Body (foldl writeValue req vs) = Body req ∧
  ctx (foldl writeValue req vs) = ctx req ∧
  hasURL (foldl writeValue req vs) = hasURL req ∧
  sameAddress req (foldl writeValue req vs).
Proof.
  revert req. induction vs as [|v vs IH]; intros req; simpl.
  - repeat split; try done. apply sameAddress_refl.
  - destruct (IH (writeValue req v)) as (-> & -> & -> & -> & Ha).
    destruct (writeValue_fields req v) as (-> & -> & ->).
    rewrite hasURL_writeValue. repeat split; try done.
    eapply sameAddress_trans; [apply writeValue_address|done].
Qed.

Lemma writes_headers vs req k :
  k ≠ cookieKey ∨ Forall (λ v, location v ≠ LocationCookie) vs →
  slice_of (Header (foldl writeValue req vs)) k =
  slice_of (Header req) k ++ headerWrites k vs.
Proof.
  intros Hk. revert req. induction vs as [|v vs IH]; intros req; simpl.
  - unfold headerWrites. simpl. by rewrite app_nil_r.
  - rewrite IH, writeValue_headers.
    + rewrite <- app_assoc, <- headerWrites_app. done.
    + destruct Hk as [Hk|Hk]; [by left|right]. by inversion Hk.
    + destruct Hk as [Hk|Hk]; [by left|right]. by inversion Hk.
Qed.

Lemma writes_cookie_line vs req :
  ∃ more, Header_Get (Header (foldl writeValue req vs)) "Cookie" =
          Header_Get (Header req) "Cookie" +:+ more.
Proof.
  revert req. induction vs as [|v vs IH]; intros req; simpl.
  - exists "". by rewrite string_app_nil_r.
  - destruct (IH (writeValue req v)) as [m2 ->].
    destruct (writeValue_cookie_line req v) as [m1 ->].
    exists (m1 +:+ m2). by rewrite string_app_assoc.
Qed.

Lemma writes_cookie_pairs vs req :
  Forall (λ v, ¬ (location v = LocationHeader ∧
                  CanonicalMIMEHeaderKey (name v) = cookieKey)) vs →
  Header_Get (Header (foldl writeValue req vs)) "Cookie" =
  foldl appendCookie (Header_Get (Header req) "Cookie") (cookieWrites vs).
Proof.
  intros HF. revert req. induction HF as [|v vs Hv HF IH]; intros req; simpl.
  - done.
  - rewrite IH, writeValue_cookie_pair by done.
    rewrite <- foldl_app, <- cookieWrites_app. done.
Qed.

Lemma writes_query vs req :
  rawQueryOf (foldl writeValue req vs) =
  if hasURL req then foldl requery (rawQueryOf req) (queryWrites vs)
  else rawQueryOf req.
Proof.
  revert req. induction vs as [|v vs IH]; intros req; simpl.
  - by destruct (hasURL req).
  - rewrite IH, hasURL_writeValue, writeValue_query.
    destruct (hasURL req); [|done].
    rewrite <- foldl_app, <- queryWrites_app. done.
Qed.

(** *** The error of the loop *)

Lemma handled_no_query b vs :
  Forall (λ v, location v ≠ LocationQueryParam) vs → handled b vs = vs.
Proof.
  induction 1 as [|v vs Hv _ IH]; simpl; [done|].
  rewrite Z_eqb_decide, bool_decide_eq_false_2 by done. simpl. by rewrite IH.
Qed.

(** Without URL, the handled triples are those before the first
    query-parameter triple. *)
Lemma handled_first_query vs :
  ¬ Forall (λ v, location v ≠ LocationQueryParam) vs →
  ∃ pre v post,
    vs = pre ++ v :: post ∧ location v = LocationQueryParam ∧
    Forall (λ x, location x ≠ LocationQueryParam) pre ∧
    handled false vs = pre.
Proof.
  induction vs as [|x vs IH]; intros Hn.
  - destruct Hn. constructor.
  - destruct (decide (location x = LocationQueryParam)) as [Hx|Hx].
    + exists [], x, vs. simpl. rewrite Hx, Z.eqb_refl. simpl.
      split_and!; first [done | by constructor].
    + destruct IH as (pre & v & post & -> & Hv & Hpre & Hh).
      { intros HF. apply Hn. by constructor. }
      exists (x :: pre), v, post. simpl.
      rewrite Z_eqb_decide, bool_decide_eq_false_2 by done. simpl.
      rewrite Hh. split_and!; first [done | by constructor].
Qed.

Lemma replayError_None b vs :
  replayError b vs = None ↔
  b = true ∨ Forall (λ v, location v ≠ LocationQueryParam) vs.
Proof.
  unfold replayError. destruct b; simpl; [tauto|].
  case_bool_decide; intuition congruence.
Qed.

Lemma replayError_cases b vs :
  replayError b vs = None ∨
  replayError b vs = Some (errorString "request has no URL set").
Proof. unfold replayError. case_match; auto. Qed.

Lemma hasURL_false req : hasURL req = false ↔ URL req = None.
Proof. unfold hasURL. destruct (URL req); naive_solver. Qed.

Lemma not_Forall_no_query (vs : list ctxValue) :
  ¬ Forall (λ v, location v ≠ LocationQueryParam) vs ↔
  ∃ v, v ∈ vs ∧ location v = LocationQueryParam.
Proof.
  split.
  - intros Hn. apply not_Forall_Exists in Hn; [|intros ?; apply _].
    apply Exists_exists in Hn as (v & Hv & Hq).
    exists v. split; [done|]. by apply dec_stable.
  - intros (v & Hv & Hq) HF. rewrite Forall_forall in HF. by apply (HF v).
Qed.

(** The loop fails exactly on a request without URL whose carrier holds a
    query-parameter triple, and then with the no-URL error. *)
Lemma addValues_error vs req :
  snd (addValues vs req) = Some (errorString "request has no URL set") ↔
  URL req = None ∧ ∃ v, v ∈ vs ∧ location v = LocationQueryParam.
Proof.
  rewrite addValues_fold. simpl.
  rewrite <- not_Forall_no_query, <- hasURL_false.
  destruct (replayError_cases (hasURL req) vs) as [He|He]; rewrite He.
  - apply replayError_None in He. split; [done|].
    intros [Hu Hn]. destruct He; [congruence|done].
  - split; [|done]. intros _.
    assert (Hn : ¬ (replayError (hasURL req) vs = None)) by (rewrite He; done).
    rewrite replayError_None in Hn. 
    destruct (hasURL req); [naive_solver|]. split; [done|]. naive_solver.
Qed.

Lemma addValues_error_cases vs req :
  snd (addValues vs req) = None ∨
  snd (addValues vs req) = Some (errorString "request has no URL set").
Proof. rewrite addValues_fold. apply replayError_cases. Qed.

(** A triple of an unknown location is passed over. *)
Lemma addValues_skip pre v post req :
  location v ≠ LocationHeader → location v ≠ LocationCookie →
  location v ≠ LocationQueryParam →
  addValues (pre ++ v :: post) req = addValues (pre ++ post) req.
Proof.
  intros H1 H2 H3. revert req.
  induction pre as [|x pre IH]; intros req.
  - by apply addValues_other.
  - simpl. repeat case_match; auto.
Qed.

Lemma carrier_AddContextData req data :
  carrier req = Some data → AddContextData req = addValues (values data) req.
Proof. intros Hc. unfold AddContextData. by rewrite Hc. Qed.

Lemma queryWrites_handled_false vs : queryWrites (handled false vs) = [].
Proof.
  unfold queryWrites. induction vs as [|v vs IH]; simpl; [done|].
  rewrite andb_true_r, Z_eqb_decide. case_bool_decide; [done|].
  by rewrite filter_cons_False.
Qed.

(** [Values.Add] keeps the values of every key and puts the new one last. *)
Lemma Values_Add_appends (q : gmap string (list string)) (n v k : string) :
  slice_of (Values_Add q n v) k =
  slice_of q k ++ (if decide (n = k) then [v] else []).
Proof.
  unfold Values_Add. rewrite slice_of_insert.
  case_decide as Hn; [by rewrite Hn|by rewrite app_nil_r].
Qed.

(** With a lawful codec, every key keeps its parsed values and gains, after
    them, the values written for it. *)
Lemma requery_values (qs : list ctxValue) (raw k : string) :
  lawfulQuery →
  slice_of (ParseQuery (foldl requery raw qs)) k =
  slice_of (ParseQuery raw) k ++ (value <$> filter (λ v, name v = k) qs).
Proof.
  intros Hlaw. revert raw. induction qs as [|v qs IH]; intros raw; simpl.
  - by rewrite app_nil_r.
  - rewrite IH. unfold requery. rewrite Hlaw, Values_Add_appends.
    rewrite <- app_assoc. f_equal.
    destruct (decide (name v = k)) as [Hn|Hn].
    + by rewrite filter_cons_True.
    + by rewrite filter_cons_False.
Qed.

(** A context derived through foreign keys binds the same carrier. *)
Lemma derived_carrier (c0 : context_Context) (req : Request) :
  derived c0 (Request_Context req) →
  context_Value (Request_Context req) (ctxDataName "httptrack") =
  context_Value c0 (ctxDataName "httptrack").
Proof. induction 1 as [|c k x _ IH]; [done|]. simpl. done. Qed.

(** A context derived from the background context holds no carrier. *)
Lemma background_no_carrier (req : Request) :
  derived context_Background (Request_Context req) → carrier req = None.
Proof. intros Hd. unfold carrier. by rewrite (derived_carrier _ _ Hd). Qed.

(** [ErrMissingContext] is returned for no other reason than a missing
    carrier. *)
Lemma AddContextData_ErrMissingContext (req : Request) :
  snd (AddContextData req) = Some ErrMissingContext → carrier req = None.
Proof.
  unfold AddContextData. destruct (carrier req) as [data|]; [|done].
  intros He. by destruct (addValues_error_cases (values data) req) as [H|H];
    rewrite H in He.
Qed.

(** C4: on a request whose context holds no carrier, [AddContextData]
    returns [ErrMissingContext] and the request is as it was: no header,
    cookie or query component has changed.  That error is returned in no
    other case. *)
Theorem AddContextData_missing_carrier (req : Request) :
  (carrier req = None → AddContextData req = (req, Some ErrMissingContext)) ∧
  (snd (AddContextData req) = Some ErrMissingContext →
   carrier req = None ∧ fst (AddContextData req) = req).
Proof.
  assert (Hmiss : carrier req = None →
                  AddContextData req = (req, Some ErrMissingContext)).
  { intros Hc. unfold AddContextData. by rewrite Hc. }
  split; [done|].
  intros He. apply AddContextData_ErrMissingContext in He as Hc.
  split; [done|]. by rewrite (Hmiss Hc).
Qed.

(** C9: [AddContextData] returns an error if and only if the context holds
    no carrier, or the request has no URL and the carrier holds a
    query-parameter triple (the first of them is then reached, since nothing
    else stops the loop); a triple whose location is none of the three
    constants writes nothing and raises nothing. *)
Theorem AddContextData_error_iff (req : Request) :
  (snd (AddContextData req) ≠ None ↔
     carrier req = None ∨
     (URL req = None ∧
      ∃ data v, carrier req = Some data ∧ v ∈ values data ∧
                location v = LocationQueryParam)) ∧
  (∀ v, location v ≠ LocationHeader → location v ≠ LocationCookie →
        location v ≠ LocationQueryParam →
        writeValue req v = req ∧
        ∀ pre post, addValues (pre ++ v :: post) req = addValues (pre ++ post) req).
Proof.
  split.
  - unfold AddContextData. destruct (carrier req) as [data|] eqn:Hc; simpl.
    + split.
      * intros He. right.
        destruct (addValues_error_cases (values data) req) as [H|H]; [done|].
        apply addValues_error in H as (Hu & v & Hv & Hq). eauto 10.
      * intros [?|(Hu & data' & v & Hd & Hv & Hq)]; [done|].
        injection Hd as <-.
        assert (H : snd (addValues (values data) req) =
                    Some (errorString "request has no URL set")).
        { apply addValues_error. eauto. }
        by rewrite H.
    + split; [by left|done].
  - intros v H1 H2 H3. split.
    + unfold writeValue. by rewrite !decide_False.
    + intros pre post. by apply addValues_skip.
Qed.

(** C10: when [AddContextData] returns the no-URL error, the triples before
    the offending query-parameter triple have all been written, and the
    request is returned in that state: their header values follow the values
    of their keys, their cookie pairs follow the cookie line, and nothing is
    undone. *)
Theorem AddContextData_partial_writes (req req' : Request) :
  AddContextData req = (req', Some (errorString "request has no URL set")) →
  ∃ data pre v post,
    carrier req = Some data ∧ values data = pre ++ v :: post ∧
    location v = LocationQueryParam ∧ URL req = None ∧
    Forall (λ x, location x ≠ LocationQueryParam) pre ∧
    addValues pre req = (req', None) ∧
    req' = foldl writeValue req pre ∧
    (∀ k, k ≠ cookieKey →
          slice_of (Header req') k = slice_of (Header req) k ++ headerWrites k pre) ∧
    (Forall (λ x, ¬ (location x = LocationHeader ∧
                     CanonicalMIMEHeaderKey (name x) = cookieKey)) pre →
     Header_Get (Header req') "Cookie" =
     foldl appendCookie (Header_Get (Header req) "Cookie") (cookieWrites pre)).
Proof.
  unfold AddContextData. destruct (carrier req) as [data|] eqn:Hc; [|done].
  rewrite addValues_fold. intros [= <- He].
  assert (Hn : ¬ (replayError (hasURL req) (values data) = None)) by (rewrite He; done).
  rewrite replayError_None in Hn.
  destruct (hasURL req) eqn:Hu; [tauto|].
  destruct (handled_first_query (values data)) as (pre & v & post & Hvs & Hv & Hpre & Hh);
    [tauto|].
  exists data, pre, v, post. rewrite Hh.
  split_and!; try done.
  - by apply hasURL_false.
  - rewrite addValues_fold, Hu, handled_no_query by done.
    f_equal. apply replayError_None. by right.
  - intros k Hk. apply writes_headers. by left.
  - intros HF. by apply writes_cookie_pairs.
Qed.

(** C5, as the code has it: with a carrier present, [AddContextData] writes
    the handled triples in carrier order (all of them when it returns no
    error; a triple of an unknown location writes nothing).  A header value
    is appended to the values of its canonical key; a cookie pair is appended
    to the first [Cookie] line; a query parameter is appended to the parsed
    query, which is encoded again.  The values of every key other than
    [Cookie] are kept, and so are those of [Cookie] when no cookie triple is
    written; the first cookie line is only ever extended; the parsed values
    of every query key are kept, the written ones after them; method, body,
    context and the rest of the URL are untouched; with no triples the
    request is returned as it was, without error. *)
Theorem AddContextData_appends (req : Request) (data : ctxData)
    (req' : Request) (err : option error) :
  carrier req = Some data →
  AddContextData req = (req', err) →
  let written := handled (hasURL req) (values data) in
  req' = foldl writeValue req written ∧
  (err = None → written = values data) ∧
  (∀ k, k ≠ cookieKey ∨ Forall (λ v, location v ≠ LocationCookie) written →
        slice_of (Header req') k =
        slice_of (Header req) k ++ headerWrites k written) ∧
  (∃ more, Header_Get (Header req') "Cookie" =
           Header_Get (Header req) "Cookie" +:+ more) ∧
  (Forall (λ v, ¬ (location v = LocationHeader ∧
                   CanonicalMIMEHeaderKey (name v) = cookieKey)) written →
   Header_Get (Header req') "Cookie" =
   foldl appendCookie (Header_Get (Header req) "Cookie") (cookieWrites written)) ∧
  rawQueryOf req' = foldl requery (rawQueryOf req) (queryWrites written) ∧
  (lawfulQuery →
   ∀ k, slice_of (ParseQuery (rawQueryOf req')) k =
        slice_of (ParseQuery (rawQueryOf req)) k ++ queryValues k written) ∧
  Method req' = Method req ∧ Body req' = Body req ∧ ctx req' = ctx req ∧
  sameAddress req req' ∧
  (values data = [] → req' = req ∧ err = None).
Proof.
  intros Hc Ha written.
  assert (Hquery : rawQueryOf (foldl writeValue req written) =
                   foldl requery (rawQueryOf req) (queryWrites written)).
  { rewrite writes_query. subst written.
    destruct (hasURL req); [done|]. by rewrite queryWrites_handled_false. }
  rewrite (carrier_AddContextData _ _ Hc), addValues_fold in Ha.
  injection Ha as <- <-. fold written.
  destruct (writes_fields written req) as (HM & HB & Hx & _ & HA).
  split_and!; try done.
  - intros He. apply replayError_None in He. subst written.
    destruct He as [-> | He]; [apply handled_with_URL | by apply handled_no_query].
  - intros k Hk. by apply writes_headers.
  - apply writes_cookie_line.
  - intros HF. by apply writes_cookie_pairs.
  - intros Hlaw k. rewrite Hquery. by apply requery_values.
  - intros Hv. split.
    + subst written. by rewrite Hv.
    + apply replayError_None. right. rewrite Hv. constructor.
Qed.

(** ** Properties of [NewRequestWithContext] *)

(** C7: if the carrier holds a query-parameter triple and the request has no
    URL, [AddContextData] returns the no-URL error, and
    [NewRequestWithContext] hands that error to its caller whenever the
    request it has built is such a request. *)
Theorem AddContextData_no_URL (req : Request) (data : ctxData) (v : ctxValue) :
  carrier req = Some data →
  v ∈ values data →
  location v = LocationQueryParam →
  URL req = None →
  snd (AddContextData req) = Some (errorString "request has no URL set") ∧
  ∀ c method url body,
    http_NewRequestWithContext c method url body = inl req →
    NewRequestWithContext c method url body =
    inr (errorString "request has no URL set").
Proof.
  intros Hc Hv Hq Hu.
  assert (He : snd (AddContextData req) =
               Some (errorString "request has no URL set")).
  { rewrite (carrier_AddContextData _ _ Hc). apply addValues_error. eauto. }
  split; [done|].
  intros c method url body Hnew. unfold NewRequestWithContext. rewrite Hnew.
  destruct (AddContextData req) as [req' e]. simpl in He. by rewrite He.
Qed.

(** C6: [NewRequestWithContext] returns the request it has built when
    [AddContextData] reports the missing carrier, and returns every other
    error of [AddContextData] to its caller; in particular, once the request
    is built with a context that binds no carrier (the background context,
    or one derived from it through the keys of other packages), the call
    succeeds and the request is the one [http.NewRequestWithContext] built,
    with nothing added. *)
Theorem NewRequestWithContext_swallows (c : option context_Context)
    (method url body : string) (req : Request) :
  http_NewRequestWithContext c method url body = inl req →
  (snd (AddContextData req) = Some ErrMissingContext →
   NewRequestWithContext c method url body = inl req) ∧
  (∀ req' err, AddContextData req = (req', Some err) →
               err ≠ ErrMissingContext →
               NewRequestWithContext c method url body = inr err) ∧
  (context_Value (Request_Context req) (ctxDataName "httptrack") = None →
   NewRequestWithContext c method url body = inl req) ∧
  (derived context_Background (Request_Context req) →
   NewRequestWithContext c method url body = inl req).
Proof.
  intros Hnew.
  assert (Hmiss : carrier req = None →
                  NewRequestWithContext c method url body = inl req).
  { intros Hc. unfold NewRequestWithContext.
    unfold AddContextData. by rewrite Hnew, Hc. }
  split_and!.
  - intros He. by apply Hmiss, AddContextData_ErrMissingContext.
  - intros req' err Ha Hne. unfold NewRequestWithContext, errors_Is.
    by rewrite Hnew, Ha, bool_decide_eq_false_2.
  - intros Hv. apply Hmiss. unfold carrier. by rewrite Hv.
  - intros Hb. by apply Hmiss, background_no_carrier.
Qed.

End Replay.

(** ** Properties of the bind pass *)

Section Bind.

Context {lib : NetHTTP} {World : Type}.

Implicit Types (r : Request) (v : Value World)
  (rules pre post : list (Value World)) (w : World) (st : bindState World).

(** One iteration, through [resolve], [emit] and [invoked]. *)
Lemma bindRule_resolve r i v st :
  bindRule r i v st =
  {| ctxValues := ctxValues st ++ emit v (fst (resolve r v (world st)));
     world := snd (resolve r v (world st));
     calls := calls st ++ (if invoked r v then [i] else []) |}.
Proof.
  unfold bindRule, resolve, emit, invoked.
  destruct (decide (inboundValue r v = "")) as [Hin|Hin].
  - rewrite !(bool_decide_eq_true_2 _ Hin). simpl.
    destruct (MissingFunc v) as [f|] eqn:Hf; simpl.
    + destruct (f (OutboundName v) r (world st)) as [s w']. simpl.
      destruct (bool_decide (s ≠ "")); simpl; by rewrite ?app_nil_r.
    + rewrite Hin. simpl. rewrite !app_nil_r. by destruct st.
  - rewrite !(bool_decide_eq_false_2 _ Hin). simpl.
    rewrite (bool_decide_eq_true_2 _ Hin), app_nil_r. done.
Qed.

(** The loop computes [triples], [worldAfter] and [callers]. *)
Lemma bindFrom_spec r rules i st :
  bindFrom r i rules st =
  {| ctxValues := ctxValues st ++ triples r rules (world st);
     world := worldAfter r rules (world st);
     calls := calls st ++ callers r i rules |}.
Proof.
  revert i st. induction rules as [|v rest IH]; intros i st; simpl.
  - rewrite !app_nil_r. by destruct st.
  - rewrite IH, bindRule_resolve. simpl.
    destruct (resolve r v (world st)) as [s w']. simpl.
    by rewrite <- !app_assoc.
Qed.

Lemma bind_spec r rules w :
  bind r rules w =
  {| ctxValues := triples r rules w; world := worldAfter r rules w;
     calls := callers r 0 rules |}.
Proof. unfold bind. by rewrite bindFrom_spec. Qed.

(** *** The rule-by-rule functions on a split rule list *)

Lemma triples_app r pre post w :
  triples r (pre ++ post) w =
  triples r pre w ++ triples r post (worldAfter r pre w).
Proof.
  revert w. induction pre as [|v pre IH]; intros w; simpl; [done|].
  destruct (resolve r v w) as [s w']. simpl. by rewrite IH, app_assoc.
Qed.

Lemma worldAfter_app r pre post w :
  worldAfter r (pre ++ post) w = worldAfter r post (worldAfter r pre w).
Proof. revert w. induction pre as [|v pre IH]; intros w; simpl; auto. Qed.

Lemma callers_app r i pre post :
  callers r i (pre ++ post) = callers r i pre ++ callers r (i + length pre) post.
Proof.
  revert i. induction pre as [|v pre IH]; intros i; simpl.
  - by rewrite Nat.add_0_r.
  - rewrite IH, <- app_assoc. do 3 f_equal. lia.
Qed.

Lemma callers_bounds r i rules k :
  k ∈ callers r i rules → i ≤ k < i + length rules.
Proof.
  revert i. induction rules as [|v rest IH]; intros i; simpl.
  - by intros ?%elem_of_nil.
  - rewrite elem_of_app. intros [Hk|Hk].
    + destruct (invoked r v); [|by apply elem_of_nil in Hk].
      apply list_elem_of_singleton in Hk. lia.
    + apply IH in Hk. lia.
Qed.

Lemma invocations_app i l1 l2 :
  invocations i (l1 ++ l2) = invocations i l1 + invocations i l2.
Proof. unfold invocations. by rewrite filter_app, length_app. Qed.

Lemma invocations_absent i l : i ∉ l → invocations i l = 0.
Proof.
  unfold invocations. induction l as [|j l IH]; [done|].
  rewrite not_elem_of_cons. intros [Hne Hl].
  rewrite filter_cons_False by done. auto.
Qed.

(** The log holds the position of a rule once if its fallback is called,
    and not at all otherwise. *)
Lemma invocations_callers r rules i v :
  rules !! i = Some v →
  invocations i (callers r 0 rules) = if invoked r v then 1 else 0.
Proof.
  intros Hi. rewrite <- (take_drop_middle rules i v Hi), callers_app. simpl.
  assert (Hlen : length (take i rules) = i).
  { apply length_take_le. apply lookup_lt_Some in Hi. lia. }
  rewrite Hlen, !invocations_app.
  rewrite (invocations_absent i (callers r 0 (take i rules))).
  2: { intros Hk%callers_bounds. lia. }
  rewrite (invocations_absent i (callers r (S i) _)).
  2: { intros Hk%callers_bounds. lia. }
  destruct (invoked r v); [|done].
  unfold invocations. by rewrite filter_cons_True.
Qed.

Lemma length_emit v s : length (emit v s) ≤ 1.
Proof. unfold emit. case_bool_decide; simpl; lia. Qed.

Lemma length_triples r rules w : length (triples r rules w) ≤ length rules.
Proof.
  revert w. induction rules as [|v rest IH]; intros w; simpl; [done|].
  destruct (resolve r v w) as [s w']. rewrite length_app.
  pose proof (length_emit v s). pose proof (IH w'). lia.
Qed.

Lemma triples_sublist r rules w :
  (field <$> triples r rules w) `sublist_of` (target <$> rules).
Proof.
  revert w. induction rules as [|v rest IH]; intros w; simpl; [done|].
  destruct (resolve r v w) as [s w']. unfold emit.
  case_bool_decide; simpl.
  - by apply sublist_skip.
  - by apply sublist_cons.
Qed.

Lemma triples_nonempty r rules w :
  Forall (λ t, value t ≠ "") (triples r rules w).
Proof.
  revert w. induction rules as [|v rest IH]; intros w; simpl; [done|].
  destruct (resolve r v w) as [s w']. apply Forall_app. split; [|done].
  unfold emit. case_bool_decide; by repeat constructor.
Qed.

Lemma fromRule_app r pre post w t i :
  i < length pre → fromRule r pre w t i → fromRule r (pre ++ post) w t i.
Proof.
  intros Hi (v & Hv & Hf & Hs). exists v.
  rewrite lookup_app_l by lia.
  assert (Hle : i ≤ length pre) by lia.
  by rewrite (take_app_le pre post i Hle).
Qed.

(** The triples come from rules at strictly increasing positions. *)
Lemma triples_positions r rules w :
  ∃ idx : list nat,
    StronglySorted lt idx ∧ Forall (λ i, i < length rules) idx ∧
    Forall2 (fromRule r rules w) (triples r rules w) idx.
Proof.
  induction rules as [|v pre IH] using rev_ind.
  - exists []. split_and!; constructor.
  - destruct IH as (idx & Hsort & Hlt & Hall).
    rewrite triples_app. simpl.
    destruct (resolve r v (worldAfter r pre w)) as [s w'] eqn:Hr.
    rewrite app_nil_r.
    assert (Hlt' : Forall (λ i, i < length (pre ++ [v])) idx).
    { eapply Forall_impl; [done|]. intros i Hi. rewrite length_app. simpl in *. lia. }
    assert (Hall' : Forall2 (fromRule r (pre ++ [v]) w) (triples r pre w) idx).
    { clear Hsort Hlt'. induction Hall as [|t i ts js Ht _ IHall]; [constructor|].
      inversion Hlt; subst. constructor; [|by apply IHall].
      by apply fromRule_app. }
    unfold emit. case_bool_decide as Hs.
    + exists (idx ++ [length pre]). split_and!.
      * clear Hall Hall' Hlt'. induction idx as [|i idx IHi]; simpl.
        { repeat constructor. }
        inversion Hsort; subst. inversion Hlt; subst.
        constructor; [by apply IHi|].
        apply Forall_app. split; [done|]. by repeat constructor.
      * apply Forall_app. split; [done|].
        repeat constructor. rewrite length_app. simpl. lia.
      * apply Forall2_app; [done|]. repeat constructor.
        exists v. rewrite list_lookup_middle by done.
        rewrite take_app_length, Hr. done.
    + exists idx. rewrite app_nil_r. done.
Qed.

Lemma handler_carrier r (vals : list ctxValue) (req : Request) :
  derived (handlerContext r vals) (Request_Context req) →
  carrier req = Some {| values := vals |}.
Proof.
  intros Hd. unfold carrier. by rewrite (derived_carrier _ _ Hd).
Qed.

Lemma resolve_inbound r v w :
  inboundValue r v ≠ "" → resolve r v w = (inboundValue r v, w).
Proof. intros Hin. unfold resolve. by rewrite bool_decide_eq_false_2. Qed.

Lemma resolve_fallback r v w f :
  inboundValue r v = "" → MissingFunc v = Some f →
  resolve r v w = f (OutboundName v) r w.
Proof. intros Hin Hf. unfold resolve. by rewrite bool_decide_eq_true_2, Hf. Qed.

Lemma resolve_no_fallback r v w :
  inboundValue r v = "" → MissingFunc v = None → resolve r v w = ("", w).
Proof. intros Hin Hf. unfold resolve. by rewrite bool_decide_eq_true_2, Hf, Hin. Qed.

(** C1: in the bind pass of [Handler], the fallback of a rule is called
    exactly once when the inbound value of the rule is absent or empty and a
    fallback is configured, and never when the inbound value is present and
    non-empty (or no fallback is configured).  The value it returns is the
    value of the triple of that rule in the carrier, which is the carrier
    every request made under the context of the downstream handler finds:
    replaying it calls no fallback. *)
Theorem fallback_once r rules w (i : nat) v :
  rules !! i = Some v →
  let st := bind r rules w in
  (inboundValue r v = "" → is_Some (MissingFunc v) →
   invocations i (calls st) = 1) ∧
  (inboundValue r v ≠ "" → invocations i (calls st) = 0) ∧
  (MissingFunc v = None → invocations i (calls st) = 0) ∧
  (∀ f s w', MissingFunc v = Some f → inboundValue r v = "" →
     f (OutboundName v) r (world (bind r (take i rules) w)) = (s, w') →
     s ≠ "" →
     ∃ later,
       ctxValues st =
       ctxValues (bind r (take i rules) w) ++
       {| location := OutboundLocation v; name := OutboundName v; value := s |}
       :: later) ∧
  (∀ next options,
     Handler next options rules r w =
     next (Request_WithContext r (handlerContext r (ctxValues st))) (world st)) ∧
  (∀ req, derived (handlerContext r (ctxValues st)) (Request_Context req) →
     carrier req = Some {| values := ctxValues st |} ∧
     AddContextData req = addValues (ctxValues st) req).
Proof.
  intros Hi st. subst st. rewrite !bind_spec. simpl.
  pose proof (invocations_callers r rules i v Hi) as Hinv.
  unfold invoked in Hinv.
  split_and!.
  - intros Hin Hf. by rewrite Hinv, !bool_decide_eq_true_2.
  - intros Hin. by rewrite Hinv, (bool_decide_eq_false_2 _ Hin).
  - intros Hf. rewrite Hinv, Hf.
    rewrite (bool_decide_eq_false_2 (is_Some None)) by (by intros [? ?]).
    by rewrite andb_false_r.
  - intros f s w' Hf Hin Hcall Hs.
    pose proof (take_drop_middle rules i v Hi) as Hsplit.
    remember (take i rules) as pre eqn:Hpre.
    rewrite <- Hsplit, triples_app. simpl.
    rewrite (resolve_fallback _ _ _ f Hin Hf), Hcall.
    unfold emit. rewrite bool_decide_eq_true_2 by done. simpl. by eexists.
  - intros next options. unfold Handler. by rewrite bind_spec.
  - intros req Hd. pose proof (handler_carrier _ _ _ Hd) as Hc.
    split; [done|]. by rewrite (carrier_AddContextData _ _ Hc).
Qed.

(** C2: the bind pass produces, for a rule list [R], the triples of the
    rules taken in order, each rule giving one triple or none: at most [|R|]
    triples, each coming from a rule of [R], at strictly increasing
    positions; their outbound fields are a subsequence of the outbound
    fields of [R]. *)
Theorem bind_order r rules w :
  let produced := ctxValues (bind r rules w) in
  produced = triples r rules w ∧
  (∀ v s, length (emit v s) ≤ 1) ∧
  length produced ≤ length rules ∧
  (∃ idx : list nat,
     StronglySorted lt idx ∧ Forall (λ i, i < length rules) idx ∧
     Forall2 (fromRule r rules w) produced idx) ∧
  (field <$> produced) `sublist_of` (target <$> rules).
Proof.
  simpl. rewrite bind_spec. simpl. split_and!.
  - done.
  - apply length_emit.
  - apply length_triples.
  - apply triples_positions.
  - apply triples_sublist.
Qed.

(** C3: a rule whose resolved value is the empty string, because its inbound
    field is absent or empty and it has no fallback, or because its fallback
    returned the empty string, adds nothing to the carrier: the triples are
    those of the rules before it followed by those of the rules after it, no
    triple of any carrier has an empty value, and when it is the only rule
    [AddContextData] returns no error and leaves the outbound request as it
    was. *)
Theorem empty_value_no_triple r pre v post w :
  let before := bind r pre w in
  inboundValue r v = "" →
  (MissingFunc v = None ∨
   ∃ f, MissingFunc v = Some f ∧ fst (f (OutboundName v) r (world before)) = "") →
  ctxValues (bindRule r (length pre) v before) = ctxValues before ∧
  ctxValues (bind r (pre ++ v :: post) w) =
    ctxValues before ++
    ctxValues (bind r post (world (bindRule r (length pre) v before))) ∧
  Forall (λ t, value t ≠ "") (ctxValues (bind r (pre ++ v :: post) w)) ∧
  (pre = [] → post = [] →
   ∀ req, derived (handlerContext r (ctxValues (bind r [v] w))) (Request_Context req) →
          AddContextData req = (req, None)).
Proof.
  intros before Hin Hfb. subst before.
  assert (Hres : fst (resolve r v (world (bind r pre w))) = "").
  { destruct Hfb as [Hf|(f & Hf & Hs)].
    - by rewrite resolve_no_fallback.
    - by rewrite (resolve_fallback _ _ _ f). }
  assert (Hemit : emit v "" = []) by done.
  rewrite bindRule_resolve, !bind_spec. rewrite bind_spec in Hres.
  simpl in *. rewrite Hres, Hemit.
  split_and!.
  - by rewrite app_nil_r.
  - rewrite triples_app. simpl.
    destruct (resolve r v (worldAfter r pre w)) as [s w'] eqn:Hr.
    simpl in Hres. subst s. by rewrite Hemit.
  - apply triples_nonempty.
  - intros -> -> req Hd. simpl in Hd, Hres.
    destruct (resolve r v w) as [s w'] eqn:Hr. simpl in Hres. subst s.
    rewrite Hemit in Hd. simpl in Hd.
    pose proof (handler_carrier _ _ _ Hd) as Hc.
    by rewrite (carrier_AddContextData _ _ Hc).
Qed.

(** C8, as the code has it: which fallbacks are called depends on the
    request and the rules alone, and two runs of the bind pass on the same
    request with the same rules produce the same triples in the same order,
    from whatever state the fallbacks start, provided every rule whose
    inbound value is absent or empty has a fallback that returns the same
    value in every state (or none). *)
Theorem bind_deterministic r rules w1 w2 :
  Forall (λ v, inboundValue r v ≠ "" ∨ stateless r v) rules →
  calls (bind r rules w1) = calls (bind r rules w2) ∧
  ctxValues (bind r rules w1) = ctxValues (bind r rules w2).
Proof.
  intros HF. rewrite !bind_spec. simpl. split; [done|].
  revert w1 w2. induction HF as [|v rest Hv _ IH]; intros w1 w2; simpl; [done|].
  assert (Hs : fst (resolve r v w1) = fst (resolve r v w2)).
  { destruct (decide (inboundValue r v = "")) as [Hin|Hin].
    - destruct Hv as [Hv|Hv]; [done|].
      destruct (MissingFunc v) as [f|] eqn:Hf.
      + rewrite !(resolve_fallback _ _ _ f) by done. by apply Hv.
      + by rewrite !resolve_no_fallback.
    - by rewrite !resolve_inbound. }
  destruct (resolve r v w1) as [s1 w1'], (resolve r v w2) as [s2 w2'].
  simpl in Hs. subst s2. f_equal. apply IH.
Qed.

End Bind.

(** ** The query codec of the plain instance is lawful *)

Lemma QueryUnescape_QueryEscape (s : string) :
  Plain.QueryUnescape (Plain.QueryEscape s) = Some s.
Proof.
  induction s as [|c s IH]; [done|].
  destruct c as [[] [] [] [] [] [] [] []]; simpl; rewrite ?IH; reflexivity.
Qed.

(** An escaped string holds no separator of a query. *)
Lemma QueryEscape_separator (s : string) :
  Plain.allBytes (λ c, negb (Plain.separator c)) (Plain.QueryEscape s) = true.
Proof.
  induction s as [|c s IH]; [done|].
  destruct c as [[] [] [] [] [] [] [] []]; simpl; rewrite ?IH; reflexivity.
Qed.

Lemma allBytes_impl (p p' : ascii → bool) (s : string) :
  (∀ c, p c = true → p' c = true) →
  Plain.allBytes p s = true → Plain.allBytes p' s = true.
Proof.
  intros Hp. induction s as [|c s IH]; simpl; [done|].
  intros [Hc Hs]%andb_true_iff. rewrite (Hp _ Hc). simpl. auto.
Qed.

Lemma allBytes_app (p : ascii → bool) (s t : string) :
  Plain.allBytes p (s +:+ t) = Plain.allBytes p s && Plain.allBytes p t.
Proof.
  induction s as [|c s IH]; [done|]. rewrite string_app_cons. simpl.
  by rewrite IH, andb_assoc.
Qed.

Lemma cut_at (sep : ascii) (a b : string) :
  Plain.allBytes (Plain.isNot sep) a = true →
  Plain.cut sep (a +:+ String sep b) = (a, b).
Proof.
  induction a as [|c a IH]; simpl.
  - intros _. by rewrite bool_decide_eq_true_2.
  - intros [Hc Ha]%andb_true_iff. rewrite ?string_app_cons. simpl.
    unfold Plain.isNot in Hc. apply negb_true_iff in Hc. rewrite Hc.
    by rewrite IH.
Qed.

Lemma split_one (sep : ascii) (a : string) :
  Plain.allBytes (Plain.isNot sep) a = true → Plain.split sep a = [a].
Proof.
  induction a as [|c a IH]; simpl; [done|].
  intros [Hc Ha]%andb_true_iff.
  unfold Plain.isNot in Hc. apply negb_true_iff in Hc. rewrite Hc.
  by rewrite IH.
Qed.

Lemma split_at (sep : ascii) (a b : string) :
  Plain.allBytes (Plain.isNot sep) a = true →
  Plain.split sep (a +:+ String sep b) = a :: Plain.split sep b.
Proof.
  induction a as [|c a IH]; simpl.
  - intros _. by rewrite bool_decide_eq_true_2.
  - intros [Hc Ha]%andb_true_iff. rewrite ?string_app_cons. simpl.
    unfold Plain.isNot in Hc. apply negb_true_iff in Hc. rewrite Hc.
    by rewrite IH.
Qed.

Lemma split_join (sep : ascii) (parts : list string) :
  parts ≠ [] →
  Forall (λ p, Plain.allBytes (Plain.isNot sep) p = true) parts →
  Plain.split sep (Plain.join sep parts) = parts.
Proof.
  intros Hne HF. induction HF as [|part parts Hp HF IH]; [done|].
  destruct parts as [|p parts].
  - simpl. by apply split_one.
  - change (Plain.join sep (part :: p :: parts))
      with (part +:+ String sep (Plain.join sep (p :: parts))).
    rewrite split_at by done. by rewrite IH.
Qed.

Lemma QueryEscape_isNot (sep : ascii) (s : string) :
  Plain.separator sep = true →
  Plain.allBytes (Plain.isNot sep) (Plain.QueryEscape s) = true.
Proof.
  intros Hsep. apply (allBytes_impl (λ c, negb (Plain.separator c))).
  - intros c Hc. unfold Plain.isNot. apply negb_true_iff, bool_decide_eq_false_2.
    intros ->. by rewrite Hsep in Hc.
  - apply QueryEscape_separator.
Qed.

Lemma encodePair_isNot (sep : ascii) (k v : string) :
  Plain.separator sep = true → sep ≠ "="%char →
  Plain.allBytes (Plain.isNot sep) (Plain.encodePair k v) = true.
Proof.
  intros Hsep Hne. unfold Plain.encodePair. rewrite allBytes_app. simpl.
  rewrite !QueryEscape_isNot by done. simpl.
  unfold Plain.isNot. by rewrite bool_decide_eq_false_2.
Qed.

(** Parsing the part written for a pair adds the pair. *)
Lemma addPart_encodePair (q : gmap string (list string)) (k v : string) :
  Plain.addPart q (Plain.encodePair k v) = Values_Add q k v.
Proof.
  unfold Plain.addPart. rewrite encodePair_isNot by done. simpl.
  rewrite bool_decide_eq_false_2.
  - unfold Plain.encodePair. rewrite cut_at by (by apply QueryEscape_isNot).
    by rewrite !QueryUnescape_QueryEscape.
  - unfold Plain.encodePair. by destruct (Plain.QueryEscape k).
Qed.

Lemma foldl_addPart (q : gmap string (list string))
    (pairs : list (string * string)) (k : string) :
  slice_of (foldl Plain.addPart q ((λ p, Plain.encodePair p.1 p.2) <$> pairs)) k =
  slice_of q k ++ (snd <$> filter (λ p, p.1 = k) pairs).
Proof.
  revert q. induction pairs as [|[k' v'] pairs IH]; intros q; simpl.
  - by rewrite app_nil_r.
  - rewrite IH, addPart_encodePair, Values_Add_appends.
    rewrite <- app_assoc. f_equal.
    destruct (decide (k' = k)) as [->|Hne].
    + by rewrite filter_cons_True.
    + by rewrite filter_cons_False.
Qed.

Lemma ParseQuery_join (pairs : list (string * string)) (k : string) :
  slice_of (Plain.ParseQuery
              (Plain.join "&" ((λ p, Plain.encodePair p.1 p.2) <$> pairs))) k =
  snd <$> filter (λ p, p.1 = k) pairs.
Proof.
  unfold Plain.ParseQuery. destruct (decide (pairs = [])) as [->|Hne]; [done|].
  rewrite split_join.
  - by rewrite foldl_addPart.
  - by destruct pairs.
  - apply Forall_fmap, Forall_forall. intros [a b] _.
    by apply encodePair_isNot.
Qed.

Lemma filter_key_same (k : string) (vs : list string) :
  (filter (λ p : string * string, p.1 = k) ((λ v, (k, v)) <$> vs)).*2 = vs.
Proof.
  induction vs as [|v vs IH]; [done|].
  rewrite fmap_cons, filter_cons_True by done.
  rewrite fmap_cons, IH. done.
Qed.

Lemma filter_key_other (k0 k : string) (vs : list string) :
  k0 ≠ k →
  filter (λ p : string * string, p.1 = k) ((λ v, (k0, v)) <$> vs) = [].
Proof.
  intros Hne. induction vs as [|v vs IH]; [done|].
  by rewrite fmap_cons, filter_cons_False.
Qed.

Lemma filter_key_bind (q : gmap string (list string)) (keys : list string)
    (k : string) :
  NoDup keys →
  snd <$> filter (λ p : string * string, p.1 = k)
            (k' ← keys; (λ v, (k', v)) <$> slice_of q k') =
  if decide (k ∈ keys) then slice_of q k else [].
Proof.
  induction 1 as [|k0 keys Hk0 Hnd IH]; [done|].
  rewrite bind_cons, filter_app, fmap_app, IH.
  destruct (decide (k0 = k)) as [->|Hne].
  - rewrite (decide_False (P := k ∈ keys)) by done.
    rewrite (decide_True (P := k ∈ k :: keys)) by left.
    by rewrite app_nil_r, filter_key_same.
  - rewrite filter_key_other by done. simpl.
    destruct (decide (k ∈ keys)) as [Hin|Hin].
    + rewrite decide_True; [done|by right].
    + rewrite decide_False; [done|]. rewrite elem_of_cons. intros [?|?]; by subst.
Qed.

(** [ParseQuery] after [Encode] gives back the values of every key. *)
Lemma plain_lawfulQuery : lawfulQuery (lib := plainHTTP).
Proof.
  intros q k. simpl. unfold Plain.Encode.
  set (keys := merge_sort String.le (map_to_list q).*1).
  assert (Hperm : keys ≡ₚ (map_to_list q).*1) by apply merge_sort_Permutation.
  assert (Hparts : (k' ← keys; Plain.encodePair k' <$> slice_of q k') =
                   (λ p, Plain.encodePair p.1 p.2) <$>
                     (k' ← keys; (λ v, (k', v)) <$> slice_of q k')).
  { clear. induction keys as [|k0 keys IH]; [done|].
    rewrite !bind_cons, fmap_app, IH. f_equal. by rewrite <- list_fmap_compose. }
  rewrite Hparts, ParseQuery_join, filter_key_bind.
  - case_decide as Hk; [done|]. unfold slice_of.
    destruct (q !! k) as [vs|] eqn:Hq; [|done].
    destruct Hk. rewrite Hperm. apply list_elem_of_fmap.
    exists (k, vs). split; [done|]. by apply elem_of_map_to_list.
  - rewrite Hperm. apply NoDup_fst_map_to_list.
Qed.

(** ** The model on the test suite *)

(** [TestHandler]: the three values reach the outbound request under their
    outbound names, and the inbound names are not used. *)
Example TestHandler :
  let st := bind (lib := plainHTTP) testRequest trackValues 0 in
  ctxValues st = [headerTriple; queryTriple; cookieTriple] ∧
  ∃ newReq,
    NewRequestWithContext (lib := plainHTTP)
      (Some (handlerContext testRequest (ctxValues st))) "GET" "/downstream" ""
    = inl newReq ∧
    Header_Get (lib := plainHTTP) (Header newReq) "x-new-header" = "header-value" ∧
    Request_Cookie (lib := plainHTTP) newReq "new-cookie" = Some "cookie-value" ∧
    rawQueryOf newReq = "new-query=query-value" ∧
    Header_Get (lib := plainHTTP) (Header newReq) "x-header" = "" ∧
    Request_Cookie (lib := plainHTTP) newReq "cookie" = None.
Proof. vm_compute. split; [done|]. eexists. split; [done|]. done. Qed.

(** [TestLostContext] *)
Example TestLostContext :
  NewRequestWithContext (lib := plainHTTP) (Some context_Background) "GET" "/" ""
  = inl lostRequest ∧
  snd (AddContextData (lib := plainHTTP) lostRequest) = Some ErrMissingContext.
Proof. by vm_compute. Qed.

(** [TestNoContext]: no value on the inbound request, yet no error. *)
Example TestNoContext :
  let st := bind (lib := plainHTTP) emptyRequest [plainRule] 0 in
  ctxValues st = [] ∧
  AddContextData (lib := plainHTTP) (downstream (handlerContext emptyRequest (ctxValues st)))
  = (downstream (handlerContext emptyRequest []), None).
Proof. by vm_compute. Qed.

(** [TestMissingFunc] *)
Example TestMissingFunc :
  let st := bind (lib := plainHTTP) emptyRequest [missingRule] 0 in
  calls st = [0] ∧
  ∃ newReq,
    NewRequestWithContext (lib := plainHTTP)
      (Some (handlerContext emptyRequest (ctxValues st))) "GET" "/" "" = inl newReq ∧
    Header_Get (lib := plainHTTP) (Header newReq) "x-header" = "blah".
Proof. vm_compute. split; [done|]. eexists. split; done. Qed.

(** Three rules on the request of [TestHandler]: the first finds its header
    and its fallback is not called; the second finds no cookie, its fallback
    is called and returns the empty string, so it gives no triple; the third
    has no fallback. *)
Example bind_three_rules :
  let st := bind (lib := plainHTTP) testRequest [missingRule; silentRule; plainRule] 0 in
  ctxValues st =
    [ {| location := LocationHeader; name := "x-header"; value := "header-value" |};
      headerTriple ] ∧
  calls st = [1] ∧ world st = 1.
Proof. by vm_compute. Qed.

(** A triple of an unknown location is passed over, without error. *)
Example stray_triple_skipped :
  AddContextData (lib := plainHTTP) (downstream (carrying [strayTriple]))
  = (downstream (carrying [strayTriple]), None).
Proof. by vm_compute. Qed.

(** The partial writes of a failed run stay on the request. *)
Example partial_writes_stay :
  let res := AddContextData (lib := plainHTTP)
               (bareRequest (carrying [headerTriple; cookieTriple; queryTriple;
                                       headerTriple])) in
  snd res = Some (errorString "request has no URL set") ∧
  map_to_list (Header (fst res)) =
    [("Cookie", ["new-cookie=cookie-value"]); ("X-New-Header", ["header-value"])].
Proof. by vm_compute. Qed.

(** ** The theorems at concrete inputs *)

Lemma fallback_once_witness :
  [freshRule; plainRule] !! 0 = Some freshRule ∧
  invocations 0 (calls (bind (lib := plainHTTP) emptyRequest [freshRule; plainRule] 5)) = 1 ∧
  ∃ later,
    ctxValues (bind (lib := plainHTTP) emptyRequest [freshRule; plainRule] 5) =
    {| location := LocationHeader; name := "x-tracking-id"; value := "id-5" |}
    :: later.
Proof.
  split; [reflexivity|].
  destruct (fallback_once (lib := plainHTTP) emptyRequest [freshRule; plainRule]
              5 0 freshRule eq_refl) as (Hone & _ & _ & Hfixed & _).
  split.
  - apply Hone; [reflexivity | by eexists].
  - apply (Hfixed freshID "id-5" 6); [reflexivity | reflexivity | reflexivity | discriminate].
Defined.

Lemma empty_value_no_triple_witness :
  inboundValue (lib := plainHTTP) testRequest silentRule = "" ∧
  fst (silent (OutboundName silentRule) testRequest
         (world (bind (lib := plainHTTP) testRequest [plainRule] 0))) = "" ∧
  ctxValues (bind (lib := plainHTTP) testRequest ([plainRule] ++ silentRule :: [missingRule]) 0) =
    ctxValues (bind (lib := plainHTTP) testRequest [plainRule] 0) ++
    ctxValues (bind (lib := plainHTTP) testRequest [missingRule]
                 (world (bindRule (lib := plainHTTP) testRequest 1 silentRule
                           (bind (lib := plainHTTP) testRequest [plainRule] 0)))).
Proof.
  split; [reflexivity|]. split; [reflexivity|].
  apply (empty_value_no_triple (lib := plainHTTP) testRequest [plainRule] silentRule
           [missingRule] 0).
  - reflexivity.
  - right. exists silent. split; reflexivity.
Defined.

Lemma AddContextData_missing_carrier_witness :
  carrier lostRequest = None ∧
  AddContextData (lib := plainHTTP) lostRequest = (lostRequest, Some ErrMissingContext).
Proof.
  split; [reflexivity|].
  destruct (AddContextData_missing_carrier (lib := plainHTTP) lostRequest)
    as [Hmiss _].
  apply Hmiss. reflexivity.
Defined.

Lemma AddContextData_appends_witness :
  let req := downstream (carrying [headerTriple; queryTriple; cookieTriple; headerTriple]) in
  let res := AddContextData (lib := plainHTTP) req in
  carrier req = Some {| values := [headerTriple; queryTriple; cookieTriple; headerTriple] |} ∧
  slice_of (Header (fst res)) "X-New-Header" = ["header-value"; "header-value"] ∧
  slice_of (Header (fst res)) "Accept" = ["*/*"] ∧
  rawQueryOf (fst res) = "a=1&new-query=query-value" ∧
  slice_of (ParseQuery (NetHTTP := plainHTTP) (rawQueryOf (fst res))) "a" = ["1"].
Proof.
  intros req res.
  destruct (AddContextData_appends (lib := plainHTTP) req
              {| values := [headerTriple; queryTriple; cookieTriple; headerTriple] |}
              (fst res) (snd res) eq_refl eq_refl)
    as (_ & _ & Hh & _ & _ & Hq & Hlaw & _).
  split; [reflexivity|]. split_and!.
  - rewrite (Hh "X-New-Header"); [reflexivity | left; discriminate].
  - rewrite (Hh "Accept"); [reflexivity | left; discriminate].
  - rewrite Hq. reflexivity.
  - rewrite (Hlaw plain_lawfulQuery "a"). reflexivity.
Defined.

Lemma NewRequestWithContext_swallows_witness :
  http_NewRequestWithContext (NetHTTP := plainHTTP)
    (Some context_Background) "GET" "/" "" = inl lostRequest ∧
  Request_Context lostRequest = context_Background ∧
  NewRequestWithContext (lib := plainHTTP) (Some context_Background) "GET" "/" ""
  = inl lostRequest.
Proof.
  split; [reflexivity|]. split; [reflexivity|].
  destruct (NewRequestWithContext_swallows (lib := plainHTTP)
              (Some context_Background) "GET" "/" "" lostRequest eq_refl)
    as (_ & _ & _ & Hbg).
  apply Hbg. apply derived_refl.
Defined.

Lemma AddContextData_no_URL_witness :
  let req := bareRequest (carrying [headerTriple; queryTriple]) in
  carrier req = Some {| values := [headerTriple; queryTriple] |} ∧
  queryTriple ∈ [headerTriple; queryTriple] ∧
  location queryTriple = LocationQueryParam ∧
  URL req = None ∧
  snd (AddContextData (lib := bareHTTP) req) =
    Some (errorString "request has no URL set") ∧
  NewRequestWithContext (lib := bareHTTP)
    (Some (carrying [headerTriple; queryTriple])) "GET" "" ""
  = inr (errorString "request has no URL set").
Proof.
  intros req.
  assert (Hin : queryTriple ∈ [headerTriple; queryTriple]).
  { apply list_elem_of_further, list_elem_of_here. }
  destruct (AddContextData_no_URL (lib := bareHTTP) req
              {| values := [headerTriple; queryTriple] |} queryTriple
              eq_refl Hin eq_refl eq_refl) as (Herr & Hnew).
  split; [reflexivity|]. split; [exact Hin|]. split; [reflexivity|].
  split; [reflexivity|]. split; [exact Herr|].
  apply Hnew. reflexivity.
Defined.

Lemma bind_deterministic_witness :
  Forall (λ v, inboundValue (lib := plainHTTP) emptyRequest v ≠ "" ∨
               stateless emptyRequest v) [missingRule; plainRule] ∧
  ctxValues (bind (lib := plainHTTP) emptyRequest [missingRule; plainRule] 0) =
  ctxValues (bind (lib := plainHTTP) emptyRequest [missingRule; plainRule] 7).
Proof.
  assert (HF : Forall (λ v, inboundValue (lib := plainHTTP) emptyRequest v ≠ "" ∨
                            stateless emptyRequest v) [missingRule; plainRule]).
  { constructor; [right; intros f Hf w1 w2; injection Hf as <-; reflexivity|].
    constructor; [right; intros f Hf; discriminate Hf|].
    constructor. }
  split; [exact HF|].
  apply (bind_deterministic (lib := plainHTTP) emptyRequest [missingRule; plainRule] 0 7 HF).
Defined.

Lemma AddContextData_partial_writes_witness :
  let req := bareRequest (carrying [headerTriple; cookieTriple; queryTriple; headerTriple]) in
  let req' := fst (AddContextData (lib := plainHTTP) req) in
  AddContextData (lib := plainHTTP) req =
    (req', Some (errorString "request has no URL set")) ∧
  slice_of (Header req') "X-New-Header" = ["header-value"] ∧
  ∃ data pre v post,
    carrier req = Some data ∧ values data = pre ++ v :: post ∧
    location v = LocationQueryParam ∧
    addValues (lib := plainHTTP) pre req = (req', None).
Proof.
  intros req req'.
  destruct (AddContextData_partial_writes (lib := plainHTTP) req req' eq_refl)
    as (data & pre & v & post & Hc & Hv & Hq & _ & _ & Hpre & _).
  split; [reflexivity|]. split; [reflexivity|].
  exists data, pre, v, post. by split_and!.
Defined.

(** ** Where the code departs from the claims *)

(** C5 as stated fails twice.  On a request with two [Cookie] lines, writing
    a cookie triple keeps the first line only, and the cookie of the second
    line is gone.  On a request without URL, a header triple that follows a
    query-parameter triple is never written. *)
Lemma AddContextData_not_all_kept_nor_written :
  ¬ (∀ (req : Request) (data : ctxData) (req' : Request) (err : option error)
       (n c : string),
       carrier req = Some data →
       AddContextData (lib := plainHTTP) req = (req', err) →
       Request_Cookie (lib := plainHTTP) req n = Some c →
       Request_Cookie (lib := plainHTTP) req' n = Some c) ∧
  ¬ (∀ (req : Request) (data : ctxData) (req' : Request) (err : option error)
       (v : ctxValue),
       carrier req = Some data →
       AddContextData (lib := plainHTTP) req = (req', err) →
       v ∈ values data → location v = LocationHeader →
       value v ∈ slice_of (Header req')
                   (CanonicalMIMEHeaderKey (NetHTTP := plainHTTP) (name v))).
Proof.
  split.
  - intros H.
    pose proof (H (twoCookieLines (carrying [cookieTriple]))
                  {| values := [cookieTriple] |} _ _ "b" "2"
                  eq_refl eq_refl eq_refl) as Hb.
    vm_compute in Hb. discriminate Hb.
  - intros H.
    assert (Hin : headerTriple ∈ [queryTriple; headerTriple]).
    { apply list_elem_of_further, list_elem_of_here. }
    pose proof (H (bareRequest (carrying [queryTriple; headerTriple]))
                  {| values := [queryTriple; headerTriple] |} _ _ headerTriple
                  eq_refl eq_refl Hin eq_refl) as Hw.
    vm_compute in Hw. by apply elem_of_nil in Hw.
Qed.

(** C8 as stated fails: with a fallback that makes a new identifier at each
    call, a second run on the same request produces another carrier. *)
Lemma bind_fresh_fallback_differs :
  ¬ (∀ (r : Request) (rules : list (Value nat)) (w : nat),
       ctxValues (bind (lib := plainHTTP) r rules
                    (world (bind (lib := plainHTTP) r rules w))) =
       ctxValues (bind (lib := plainHTTP) r rules w)).
Proof.
  intros H. specialize (H emptyRequest [freshRule] 0).
  vm_compute in H. discriminate H.
Qed.

(** ** More on the replay *)

Section ReplayMore.

Context {lib : NetHTTP}.

(** On a request with a URL the loop handles every triple and returns no
    error. *)
Lemma addValues_with_URL (vs : list ctxValue) (req : Request) :
  hasURL req = true → addValues vs req = (foldl writeValue req vs, None).
Proof.
  intros Hu. rewrite addValues_fold, Hu, handled_with_URL. done.
Qed.



Lemma queryValues_elem (vs : list ctxValue) (t : ctxValue) :
  t ∈ vs → location t = LocationQueryParam → value t ∈ queryValues (name t) vs.
Proof.
  intros Ht Hl. unfold queryValues, queryWrites. apply list_elem_of_fmap.
  exists t. split; [done|]. apply list_elem_of_filter. split; [done|].
  by apply list_elem_of_filter.
Qed.


(** [NewRequestWithContext] adds no failure of its own on a request with a
    URL: whenever [http.NewRequestWithContext] returns such a request, so
    does the wrapper, with the triples of the carrier (if any) written and
    the method, the body and the context as built. *)
Theorem NewRequestWithContext_no_new_failure (c : option context_Context)
    (method url body : string) (req : Request) :
  http_NewRequestWithContext c method url body = inl req →
  hasURL req = true →
  ∃ req',
    NewRequestWithContext c method url body = inl req' ∧
    req' = foldl writeValue req (from_option values [] (carrier req)) ∧
    Method req' = Method req ∧ Body req' = Body req ∧ ctx req' = ctx req ∧
    sameAddress req req'.
Proof.
  intros Hnew Hu. unfold NewRequestWithContext, AddContextData. rewrite Hnew.
  destruct (carrier req) as [data|] eqn:Hc; simpl.
  - rewrite (addValues_with_URL _ _ Hu).
    eexists. split; [done|]. split; [done|].
    destruct (writes_fields (values data) req) as (? & ? & ? & _ & ?). done.
  - exists req. split_and!; try done. apply sameAddress_refl.
Qed.

End ReplayMore.

(** ** More on the bind pass *)

Section BindMore.

Context {lib : NetHTTP} {World : Type}.

Implicit Types (r : Request) (v : Value World)
  (rules pre post : list (Value World)) (w : World).

Lemma callers_sorted r (j : nat) rules :
  StronglySorted lt (callers r j rules).
Proof.
  revert j. induction rules as [|v rest IH]; intros j; simpl; [constructor|].
  destruct (invoked r v); simpl; [|apply IH].
  constructor; [apply IH|].
  apply Forall_forall. intros k Hk%callers_bounds. lia.
Qed.

Lemma callers_invoked r (j : nat) rules :
  Forall (λ i, ∃ v, rules !! (i - j) = Some v ∧ j ≤ i ∧ invoked r v = true)
    (callers r j rules).
Proof.
  revert j. induction rules as [|v rest IH]; intros j; simpl; [constructor|].
  apply Forall_app. split.
  - destruct (invoked r v) eqn:Hv; [|constructor].
    repeat constructor. exists v. rewrite Nat.sub_diag. done.
  - pose proof (callers_bounds r (S j) rest) as Hb.
    specialize (IH (S j)). rewrite Forall_forall in IH. apply Forall_forall.
    intros i Hi. destruct (IH i Hi) as (v' & Hv' & Hle & Hinv).
    exists v'. split_and!; [|lia|done].
    replace (i - j) with (S (i - S j)) by lia. done.
Qed.

(** The fallbacks are called in the order of the rules: the positions logged
    are strictly increasing, each is the position of a rule whose inbound
    value is absent or empty and whose fallback is set, and there are at
    most as many calls as rules. *)
Theorem fallbacks_in_rule_order r rules w :
  StronglySorted lt (calls (bind r rules w)) ∧
  Forall (λ i, ∃ v, rules !! i = Some v ∧ inboundValue r v = "" ∧
                    is_Some (MissingFunc v))
    (calls (bind r rules w)) ∧
  length (calls (bind r rules w)) ≤ length rules.
Proof.
  rewrite bind_spec. simpl. split_and!.
  - apply callers_sorted.
  - eapply Forall_impl; [apply callers_invoked|]. simpl.
    intros i (v & Hv & _ & Hinv). rewrite Nat.sub_0_r in Hv.
    exists v. split; [done|]. unfold invoked in Hinv.
    apply andb_true_iff in Hinv as [H1 H2].
    split; [by apply bool_decide_eq_true_1 in H1|by apply bool_decide_eq_true_1 in H2].
  - assert (Hlen : ∀ j, length (callers r j rules) ≤ length rules).
    { induction rules as [|v rest IH]; intros j; simpl; [done|].
      rewrite length_app. specialize (IH (S j)).
      destruct (invoked r v); simpl; lia. }
    apply Hlen.
Qed.

Lemma resolve_quiet r v w :
  inboundValue r v ≠ "" ∨ MissingFunc v = None →
  resolve r v w = (inboundValue r v, w) ∧ invoked r v = false.
Proof.
  intros [Hin|Hf].
  - split; [by apply resolve_inbound|].
    unfold invoked. by rewrite (bool_decide_eq_false_2 _ Hin).
  - unfold resolve, invoked. rewrite Hf.
    rewrite (bool_decide_eq_false_2 (is_Some None)) by (by intros [? ?]).
    rewrite andb_false_r. split; [|done]. by case_bool_decide.
Qed.

(** When every rule finds its value or has no fallback, the pass calls no
    fallback and leaves their state alone, and the carrier holds, in rule
    order, the inbound value of each rule that has one, under the outbound
    location and name of the rule.  When no rule finds a value the carrier
    is empty, and [AddContextData] under the context of the handler returns
    no error and changes nothing. *)
Theorem bind_without_fallbacks r rules w :
  Forall (λ v, inboundValue r v ≠ "" ∨ MissingFunc v = None) rules →
  bind r rules w =
    {| ctxValues := rules ≫= (λ v, emit v (inboundValue r v));
       world := w; calls := [] |} ∧
  (Forall (λ v, inboundValue r v = "") rules →
   ctxValues (bind r rules w) = [] ∧
   ∀ req, derived (handlerContext r (ctxValues (bind r rules w)))
            (Request_Context req) →
          AddContextData req = (req, None)).
Proof.
  intros HF. rewrite bind_spec.
  assert (Hspec : ∀ j,
            triples r rules w = rules ≫= (λ v, emit v (inboundValue r v)) ∧
            worldAfter r rules w = w ∧ callers r j rules = []).
  { induction HF as [|v rest Hv _ IH]; intros j; [done|].
    rewrite bind_cons. cbn [triples worldAfter callers].
    destruct (resolve_quiet r v w Hv) as [-> ->]. cbn [fst snd].
    by destruct (IH (S j)) as (-> & -> & ->). }
  destruct (Hspec 0) as (Ht & Hw & Hc). rewrite Ht, Hw, Hc.
  split; [done|]. intros Hempty. simpl.
  assert (Hnil : rules ≫= (λ v, emit v (inboundValue r v)) = []).
  { clear -Hempty. induction Hempty as [|v rest Hv _ IH]; [done|].
    by rewrite bind_cons, IH, Hv. }
  rewrite Hnil. split; [done|].
  intros req Hd. pose proof (handler_carrier _ _ _ Hd) as Hcar.
  by rewrite (carrier_AddContextData _ _ Hcar).
Qed.

(** A rule whose inbound location is none of the three constants, or which
    reads a query parameter of a request without URL, finds nothing and does
    not fail: its value is the value of its fallback, which is called once,
    and without a fallback it gives no triple. *)
Theorem inbound_nowhere r rules w (i : nat) v :
  rules !! i = Some v →
  (InboundLocation v ≠ LocationHeader ∧ InboundLocation v ≠ LocationCookie ∧
   InboundLocation v ≠ LocationQueryParam) ∨
  (InboundLocation v = LocationQueryParam ∧ URL r = None) →
  inboundValue r v = "" ∧
  invocations i (calls (bind r rules w)) =
    match MissingFunc v with Some _ => 1 | None => 0 end ∧
  ∀ w0, resolve r v w0 =
        match MissingFunc v with
        | Some f => f (OutboundName v) r w0
        | None => ("", w0)
        end.
Proof.
  intros Hi Hloc.
  assert (Hin : inboundValue r v = "").
  { unfold inboundValue. rewrite !Z_eqb_decide.
    destruct Hloc as [(H1 & H2 & H3)|[Hq Hu]].
    - by rewrite !bool_decide_eq_false_2.
    - rewrite Hq, Hu. done. }
  split; [done|]. split.
  - rewrite bind_spec. simpl. rewrite (invocations_callers r rules i v Hi).
    unfold invoked. rewrite (bool_decide_eq_true_2 _ Hin). simpl.
    destruct (MissingFunc v); [by rewrite bool_decide_eq_true_2|].
    by rewrite bool_decide_eq_false_2 by (by intros [? ?]).
  - intros w0. destruct (MissingFunc v) as [f|] eqn:Hf.
    + by apply resolve_fallback.
    + by apply resolve_no_fallback.
Qed.

(** *** From the inbound request to the outbound request *)

Lemma resolved_triple r rules w (i : nat) v (s : string) :
  rules !! i = Some v →
  fst (resolve r v (worldAfter r (take i rules) w)) = s →
  s ≠ "" →
  {| location := OutboundLocation v; name := OutboundName v; value := s |}
    ∈ triples r rules w.
Proof.
  intros Hi Hs Hne. pose proof (take_drop_middle rules i v Hi) as Hsplit.
  remember (take i rules) as pre eqn:Hpre.
  rewrite <- Hsplit, triples_app. simpl.
  destruct (resolve r v (worldAfter r pre w)) as [s' w']. simpl in Hs. subst s'.
  unfold emit. rewrite bool_decide_eq_true_2 by done.
  apply elem_of_app. right. apply elem_of_app. left. apply list_elem_of_here.
Qed.

Lemma present_triple r rules w (i : nat) v :
  rules !! i = Some v → inboundValue r v ≠ "" →
  {| location := OutboundLocation v; name := OutboundName v;
     value := inboundValue r v |} ∈ triples r rules w.
Proof.
  intros Hi Hin. apply (resolved_triple r rules w i v); [done| |done].
  by rewrite resolve_inbound.
Qed.


(** The same for a rule that writes a query parameter, under a codec that
    parses what it encodes: the value is among the values the outbound query
    parses to under the outbound name, after those the query had. *)
Theorem query_round_trip r rules w (i : nat) v (req : Request) :
  lawfulQuery →
  rules !! i = Some v →
  inboundValue r v ≠ "" →
  OutboundLocation v = LocationQueryParam →
  derived (handlerContext r (ctxValues (bind r rules w))) (Request_Context req) →
  hasURL req = true →
  ∃ req',
    AddContextData req = (req', None) ∧
    inboundValue r v ∈ slice_of (ParseQuery (rawQueryOf req')) (OutboundName v) ∧
    slice_of (ParseQuery (rawQueryOf req)) (OutboundName v)
      `prefix_of` slice_of (ParseQuery (rawQueryOf req')) (OutboundName v) ∧
    (rules = [v] →
     slice_of (ParseQuery (rawQueryOf req')) (OutboundName v) =
     slice_of (ParseQuery (rawQueryOf req)) (OutboundName v) ++ [inboundValue r v]).
Proof.
  intros Hlaw Hi Hin Hloc Hd Hu.
  pose proof (handler_carrier _ _ _ Hd) as Hc.
  rewrite (carrier_AddContextData _ _ Hc), (addValues_with_URL _ _ Hu).
  eexists. split; [done|]. simpl.
  rewrite writes_query, Hu, (requery_values _ _ _ Hlaw). rewrite bind_spec. simpl.
  fold (queryValues (OutboundName v) (triples r rules w)).
  split_and!.
  - apply elem_of_app. right.
    apply (queryValues_elem _
             {| location := OutboundLocation v; name := OutboundName v;
                value := inboundValue r v |}); [|done].
    by apply present_triple with i.
  - by apply prefix_app_r.
  - intros ->. simpl. rewrite (resolve_inbound _ _ _ Hin). simpl.
    unfold emit. rewrite bool_decide_eq_true_2 by done. simpl.
    unfold queryValues, queryWrites.
    rewrite filter_cons_True by done. by rewrite filter_cons_True.
Qed.

(** *** A handler inside a handler *)



End BindMore.

(** ** [Get] and [Post] *)

Section ClientMore.

Context {lib : NetHTTP} {Response Net : Type}.

Variable client_Do : Request → Net → (option Response * option error) * Net.

(** [Get] hands nothing to the transport when the request cannot be built or
    the replay fails for want of a URL: the error is returned and the
    network is as it was.  Otherwise the transport is given the request
    [http.NewRequestWithContext] built, as it is when the context holds no
    carrier, and with the triples of the carrier written when it holds
    one. *)
Theorem Get_sends (c : option context_Context) (url : string) (net : Net) :
  (∀ err, http_NewRequestWithContext c "GET" url "" = inr err →
          Get client_Do c url net = ((None, Some err), net)) ∧
  (∀ req, http_NewRequestWithContext c "GET" url "" = inl req →
     (carrier req = None → Get client_Do c url net = client_Do req net) ∧
     (∀ data, carrier req = Some data → hasURL req = true →
        Get client_Do c url net =
        client_Do (foldl writeValue req (values data)) net) ∧
     (∀ data v, carrier req = Some data → URL req = None →
        v ∈ values data → location v = LocationQueryParam →
        Get client_Do c url net =
        ((None, Some (errorString "request has no URL set")), net))).
Proof.
  split.
  - intros err Hnew. unfold Get, NewRequestWithContext. by rewrite Hnew.
  - intros req Hnew. unfold Get, NewRequestWithContext, AddContextData.
    rewrite Hnew. split_and!.
    + intros Hc. by rewrite Hc.
    + intros data Hc Hu. by rewrite Hc, (addValues_with_URL _ _ Hu).
    + intros data v Hc Hu Hv Hq. rewrite Hc.
      assert (He : snd (addValues (values data) req) =
                   Some (errorString "request has no URL set")).
      { apply addValues_error. eauto. }
      destruct (addValues (values data) req) as [req' e]. simpl in He.
      by rewrite He.
Qed.

(** [Post] appends its content type after the replay: on the request given
    to the transport the values of [Content-Type] are those the built
    request had, then those of the carrier, then the argument; every other
    header is as the replay left it.  Since [Header.Get] returns the first
    value, a carrier that tracks [Content-Type] decides what it reads. *)
Theorem Post_content_type (c : option context_Context)
    (url contentType body : string) (net : Net) (req : Request) (data : ctxData) :
  http_NewRequestWithContext c "POST" url body = inl req →
  carrier req = Some data →
  hasURL req = true →
  CanonicalMIMEHeaderKey "Content-Type" ≠ cookieKey →
  let key := CanonicalMIMEHeaderKey "Content-Type" in
  ∃ sent,
    Post client_Do c url contentType body net = client_Do sent net ∧
    slice_of (Header sent) key =
      slice_of (Header req) key ++ headerWrites key (values data) ++ [contentType] ∧
    Header_Get (Header sent) "Content-Type" =
      first_or_empty
        (slice_of (Header req) key ++ headerWrites key (values data) ++ [contentType]) ∧
    (∀ k, k ≠ key →
          slice_of (Header sent) k =
          slice_of (Header (foldl writeValue req (values data))) k) ∧
    Method sent = Method req ∧ Body sent = Body req ∧ ctx sent = ctx req ∧
    rawQueryOf sent = foldl requery (rawQueryOf req) (queryWrites (values data)).
Proof.
  intros Hnew Hc Hu Hk key.
  unfold Post, NewRequestWithContext, AddContextData.
  rewrite Hnew, Hc, (addValues_with_URL _ _ Hu).
  eexists. split; [done|].
  destruct (writes_fields (values data) req) as (HM & HB & Hx & _ & _).
  assert (Hslice : slice_of
            (Header_Add (Header (foldl writeValue req (values data)))
               "Content-Type" contentType) key =
          slice_of (Header req) key ++ headerWrites key (values data) ++ [contentType]).
  { unfold Header_Add. fold key. rewrite slice_of_insert, decide_True by done.
    rewrite writes_headers by (by left). by rewrite <- app_assoc. }
  split_and!; simpl; try done.
  - unfold Header_Get. fold key. simpl. by rewrite Hslice.
  - intros k Hne. unfold Header_Add. fold key.
    by rewrite slice_of_insert, decide_False.
  - unfold rawQueryOf. simpl. fold (rawQueryOf (foldl writeValue req (values data))).
    by rewrite writes_query, Hu.
Qed.

End ClientMore.

(** ** Cookies and fallback values, end to end *)

Section RoundTrips.

Context {lib : NetHTTP} {World : Type}.

Implicit Types (r : Request) (v : Value World)
  (rules : list (Value World)) (w : World).

Lemma triples_fields (P : Z * string → Prop) r rules w :
  Forall (λ v, P (target v)) rules → Forall (λ t, P (field t)) (triples r rules w).
Proof.
  intros HF. revert w. induction HF as [|v rest Hv _ IH]; intros w; simpl; [done|].
  destruct (resolve r v w) as [s w']. apply Forall_app. split; [|apply IH].
  unfold emit. case_bool_decide; by repeat constructor.
Qed.

Lemma appendCookie_holds (pairs : list string) (line pair : string) :
  pair ∈ pairs →
  ∃ before after, foldl appendCookie line pairs = before +:+ pair +:+ after.
Proof.
  revert line. induction pairs as [|p pairs IH]; intros line Hin.
  - by apply elem_of_nil in Hin.
  - assert (Hkeep : ∀ l0 : string, ∃ more, foldl appendCookie l0 pairs = l0 +:+ more).
    { clear. induction pairs as [|q qs IHq]; intros l0; simpl.
      - exists "". by rewrite string_app_nil_r.
      - destruct (IHq (appendCookie l0 q)) as [m ->]. unfold appendCookie.
        case_bool_decide as Hl.
        + exists ("; " +:+ q +:+ m). by rewrite !string_app_assoc.
        + rewrite Hl. by exists (q +:+ m). }
    apply elem_of_cons in Hin as [->|Hin]; [|by apply IH].
    simpl. destruct (Hkeep (appendCookie line p)) as [m ->].
    unfold appendCookie. case_bool_decide.
    + exists (line +:+ "; "), m. by rewrite !string_app_assoc.
    + exists "", m. done.
Qed.

(** Once a cookie triple has been written, and as long as no header triple
    lands on its key, the cookie header is a single line. *)
Lemma writes_single_cookie_line (vs : list ctxValue) (req : Request) :
  Forall (λ t, offCookieKey (field t)) vs →
  length (slice_of (Header req) cookieKey) = 1 ∨
    (∃ t, t ∈ vs ∧ location t = LocationCookie) →
  length (slice_of (Header (foldl writeValue req vs)) cookieKey) = 1.
Proof.
  intros HF. revert req. induction HF as [|t vs Ht _ IH]; intros req Hone; simpl.
  - destruct Hone as [?|(t & Ht & _)]; [done|]. by apply elem_of_nil in Ht.
  - apply IH. destruct (decide (location t = LocationCookie)) as [Hc|Hc].
    + left. by rewrite writeValue_cookie_single_line.
    + destruct Hone as [Hlen|(t' & Ht' & Hc')].
      * left. rewrite writeValue_headers by (by right).
        unfold headerWrites. rewrite filter_cons_False; [by rewrite app_nil_r|].
        intros [Hl Hk]. by apply Ht.
      * apply elem_of_cons in Ht' as [->|Ht']; [done|]. right. eauto.
Qed.

(** A value found on the inbound request, by a rule that writes a cookie,
    is on the cookie line of every outbound request with a URL that replays
    the carrier, as the pair [AddCookie] makes of the outbound name and the
    value, provided no rule writes the [Cookie] header directly: the cookie
    header is then one line, and when the rule is the only one the pair has
    been appended to the line the request had. *)
Theorem cookie_round_trip r rules w (i : nat) v (req : Request) :
  rules !! i = Some v →
  inboundValue r v ≠ "" →
  OutboundLocation v = LocationCookie →
  Forall (λ v', offCookieKey (target v')) rules →
  derived (handlerContext r (ctxValues (bind r rules w))) (Request_Context req) →
  hasURL req = true →
  ∃ req' before after,
    AddContextData req = (req', None) ∧
    Header_Get (Header req') "Cookie" =
      before +:+ cookiePair (OutboundName v) (inboundValue r v) +:+ after ∧
    length (slice_of (Header req') cookieKey) = 1 ∧
    (rules = [v] →
     Header_Get (Header req') "Cookie" =
     appendCookie (Header_Get (Header req) "Cookie")
       (cookiePair (OutboundName v) (inboundValue r v))).
Proof.
  intros Hi Hin Hloc Hoff Hd Hu.
  pose proof (handler_carrier _ _ _ Hd) as Hc.
  rewrite (carrier_AddContextData _ _ Hc), (addValues_with_URL _ _ Hu).
  rewrite bind_spec. simpl.
  pose proof (triples_fields offCookieKey r rules w Hoff) as Hoff'.
  pose proof (present_triple r rules w i v Hi Hin) as Ht.
  destruct (appendCookie_holds (cookieWrites (triples r rules w))
              (Header_Get (Header req) "Cookie")
              (cookiePair (OutboundName v) (inboundValue r v)))
    as (before & after & Hline).
  { unfold cookieWrites. apply list_elem_of_fmap.
    eexists. split; [|apply list_elem_of_filter; split; [|exact Ht]]; done. }
  exists (foldl writeValue req (triples r rules w)), before, after.
  split; [done|]. split_and!.
  - by rewrite writes_cookie_pairs.
  - apply writes_single_cookie_line; [done|]. right. eauto.
  - intros ->. rewrite writes_cookie_pairs by done. simpl.
    rewrite (resolve_inbound _ _ _ Hin). simpl.
    unfold emit. rewrite bool_decide_eq_true_2 by done. simpl.
    unfold cookieWrites. by rewrite filter_cons_True.
Qed.


End RoundTrips.

(** ** The further theorems at concrete inputs *)


Lemma NewRequestWithContext_no_new_failure_witness :
  let c := carrying [headerTriple] in
  let req := {| Method := "GET";
                URL := Some {| Scheme := ""; Host := ""; Path := "/downstream";
                               RawQuery := "" |};
                Header := ∅; Body := ""; ctx := Some c |} in
  http_NewRequestWithContext (NetHTTP := plainHTTP) (Some c) "GET" "/downstream" ""
    = inl req ∧
  hasURL req = true ∧
  ∃ req', NewRequestWithContext (lib := plainHTTP) (Some c) "GET" "/downstream" ""
          = inl req' ∧ ctx req' = Some c.
Proof.
  intros c req.
  destruct (NewRequestWithContext_no_new_failure (lib := plainHTTP)
              (Some c) "GET" "/downstream" "" req eq_refl eq_refl)
    as (req' & Hnew & _ & _ & _ & Hctx & _).
  split; [reflexivity|]. split; [reflexivity|].
  exists req'. split; [exact Hnew | exact Hctx].
Defined.

Lemma bind_without_fallbacks_witness :
  Forall (λ v, inboundValue (lib := plainHTTP) testRequest v ≠ "" ∨
               MissingFunc v = None) trackValues ∧
  bind (lib := plainHTTP) testRequest trackValues 3 =
    {| ctxValues := [headerTriple; queryTriple; cookieTriple];
       world := 3; calls := [] |}.
Proof.
  assert (HF : Forall (λ v, inboundValue (lib := plainHTTP) testRequest v ≠ "" ∨
                            MissingFunc v = None) trackValues).
  { constructor; [by right|]. constructor; [by right|].
    constructor; [by right|]. constructor. }
  split; [exact HF|].
  destruct (bind_without_fallbacks (lib := plainHTTP) testRequest trackValues 3 HF)
    as [Hbind _].
  rewrite Hbind. reflexivity.
Defined.

Lemma inbound_nowhere_witness :
  [nowhereRule] !! 0 = Some nowhereRule ∧
  InboundLocation nowhereRule ≠ LocationHeader ∧
  inboundValue (lib := plainHTTP) testRequest nowhereRule = "" ∧
  invocations 0 (calls (bind (lib := plainHTTP) testRequest [nowhereRule] 0)) = 1.
Proof.
  destruct (inbound_nowhere (lib := plainHTTP) testRequest [nowhereRule] 0 0
              nowhereRule eq_refl) as (Hin & Hcalls & _).
  { left. split_and!; discriminate. }
  split; [reflexivity|]. split; [discriminate|]. split; [exact Hin | exact Hcalls].
Defined.


Lemma query_round_trip_witness :
  let c := handlerContext testRequest
             (ctxValues (bind (lib := plainHTTP) testRequest [queryRule] 0)) in
  [queryRule] !! 0 = Some queryRule ∧
  inboundValue (lib := plainHTTP) testRequest queryRule = "query-value" ∧
  ∃ req',
    AddContextData (lib := plainHTTP) (downstream c) = (req', None) ∧
    slice_of (ParseQuery (NetHTTP := plainHTTP) (rawQueryOf req')) "new-query"
    = ["query-value"].
Proof.
  intros c.
  destruct (query_round_trip (lib := plainHTTP) testRequest [queryRule] 0 0
              queryRule (downstream c) plain_lawfulQuery)
    as (req' & Ha & _ & _ & Hexact).
  - reflexivity.
  - discriminate.
  - reflexivity.
  - apply derived_refl.
  - reflexivity.
  - split; [reflexivity|]. split; [reflexivity|].
    exists req'. split; [exact Ha|]. apply (Hexact eq_refl).
Defined.

Lemma cookie_round_trip_witness :
  let c := handlerContext testRequest
             (ctxValues (bind (lib := plainHTTP) testRequest trackValues 0)) in
  trackValues !! 2 = Some (mkValue LocationCookie "cookie" LocationCookie "new-cookie" None) ∧
  ∃ req' before after,
    AddContextData (lib := plainHTTP) (downstream c) = (req', None) ∧
    Header_Get (lib := plainHTTP) (Header req') "Cookie" =
      before +:+ "new-cookie=cookie-value" +:+ after ∧
    length (slice_of (Header req') "Cookie") = 1.
Proof.
  intros c.
  destruct (cookie_round_trip (lib := plainHTTP) testRequest trackValues 0 2
              (mkValue LocationCookie "cookie" LocationCookie "new-cookie" None)
              (downstream c))
    as (req' & before & after & Ha & Hline & Hone & _).
  - reflexivity.
  - discriminate.
  - reflexivity.
  - constructor; [intros [_ Hk]; discriminate Hk|].
    constructor; [intros [Hl _]; discriminate Hl|].
    constructor; [intros [Hl _]; discriminate Hl|]. constructor.
  - apply derived_refl.
  - reflexivity.
  - split; [reflexivity|]. exists req', before, after.
    split; [exact Ha|]. split; [exact Hline | exact Hone].
Defined.


Lemma Post_content_type_witness :
  let c := handlerContext uploadRequest
             (ctxValues (bind (lib := plainHTTP) uploadRequest [contentTypeRule] 0)) in
  let req := {| Method := "POST";
                URL := Some {| Scheme := ""; Host := ""; Path := "/store";
                               RawQuery := "" |};
                Header := ∅; Body := "a,b"; ctx := Some c |} in
  http_NewRequestWithContext (NetHTTP := plainHTTP) (Some c) "POST" "/store" "a,b"
    = inl req ∧
  carrier req =
    Some {| values := [ {| location := LocationHeader; name := "content-type";
                           value := "application/json" |} ] |} ∧
  ∃ sent,
    Post (lib := plainHTTP) echoDo (Some c) "/store" "text/csv" "a,b" []
    = echoDo sent [] ∧
    slice_of (Header sent) "Content-Type" = ["application/json"; "text/csv"] ∧
    Header_Get (lib := plainHTTP) (Header sent) "Content-Type" = "application/json".
Proof.
  intros c req.
  destruct (Post_content_type (lib := plainHTTP) echoDo (Some c) "/store" "text/csv"
              "a,b" [] req
              {| values := [ {| location := LocationHeader; name := "content-type";
                                value := "application/json" |} ] |})
    as (sent & Hpost & Hslice & Hget & _).
  - reflexivity.
  - reflexivity.
  - reflexivity.
  - discriminate.
  - split; [reflexivity|]. split; [reflexivity|].
    exists sent. split; [exact Hpost|]. split.
    + etrans; [exact Hslice | reflexivity].
    + etrans; [exact Hget | reflexivity].
Defined.
